(** * PC-BASIC array memory manager ([pcbasic/basic/arrays.py])

    A shallow embedding of the [Arrays] class: the four dictionaries, the
    arena pointer [current] and the OPTION BASE flag are the fields of a
    record, every method is a function in a state-and-exception monad in
    which the state survives a raised exception (as the mutated Python
    object does), and the collaborators that live outside this module
    ([values], [scalars], the memory object) are parameters. *)

From Stdlib Require Import ZArith List String Ascii Bool Lia Permutation.
From Stdlib Require Import Strings.Byte.
Import ListNotations.
Open Scope Z_scope.

(** ** Exceptions *)

(** The error codes of [error.py] that [arrays.py] raises. *)
Inductive error_code : Type :=
| IFC
| DUPLICATE_DEFINITION
| SUBSCRIPT_OUT_OF_RANGE
| OUT_OF_MEMORY
| STX.

(** [RunError] is the interpreter's exception; the others are the Python
    exceptions the methods can let escape. *)
Inductive exception : Type :=
| RunError (code : error_code)
| KeyError
| IndexError
| TypeError
| ValueError
| UnboundLocalError
| StructError.

Inductive result (A : Type) : Type :=
| Ok (a : A)
| Raise (e : exception).
Arguments Ok {A} a.
Arguments Raise {A} e.

(** ** Dictionaries

    A Python [dict] as an association list without duplicate keys. The list
    gives one order of iteration: [set] puts a new key at the end and keeps
    the place of an existing one. Python 2 iterates a [dict] in the order of
    its hash table, which need not be the order of insertion, so the order
    of the list stands for one possible listing and no more. What a method
    looks up by key does not depend on it; the loops whose result does, the
    ones of [dereference] and [get_strings], have their properties stated
    for every listing of the table ([relisted] below). *)
Module Dict.

Definition t (V : Type) : Type := list (string * V).

Fixpoint get {V} (k : string) (d : t V) : option V :=
  match d with
  | [] => None
  | (k', v) :: d' => if String.eqb k k' then Some v else get k d'
  end.

Definition contains {V} (k : string) (d : t V) : bool :=
  match get k d with Some _ => true | None => false end.

(** [d[k]], raising [KeyError]. *)
Definition lookup {V} (k : string) (d : t V) : result V :=
  match get k d with Some v => Ok v | None => Raise KeyError end.

(** [d[k] = v]. *)
Fixpoint set {V} (k : string) (v : V) (d : t V) : t V :=
  match d with
  | [] => [(k, v)]
  | (k', v') :: d' =>
      if String.eqb k k' then (k', v) :: d' else (k', v') :: set k v d'
  end.

(** The dictionary without [k]. *)
Fixpoint remove {V} (k : string) (d : t V) : t V :=
  match d with
  | [] => []
  | (k', v') :: d' => if String.eqb k k' then d' else (k', v') :: remove k d'
  end.

(** [del d[k]], raising [KeyError]. *)
Definition del {V} (k : string) (d : t V) : result (t V) :=
  if contains k d then Ok (remove k d) else Raise KeyError.

Definition keys {V} (d : t V) : list string := map fst d.

End Dict.

(** ** Python slices *)

(** The bounds [a:b] of a slice of a sequence of length [len], as Python
    normalises them: a negative bound counts from the end, and both are
    clipped to the sequence. *)
Definition slice_bound (len x : Z) : Z :=
  if x <? 0 then Z.max 0 (x + len) else Z.min x len.

Definition slice {A} (l : list A) (a b : Z) : list A :=
  let len := Z.of_nat (List.length l) in
  let lo := slice_bound len a in
  let hi := slice_bound len b in
  firstn (Z.to_nat (hi - lo)) (skipn (Z.to_nat lo) l).

(** [l[i]] on a sequence: a negative index counts from the end. *)
Definition item {A} (l : list A) (i : Z) : result A :=
  let len := Z.of_nat (List.length l) in
  let j := if i <? 0 then i + len else i in
  if (j <? 0) || (len <=? j) then Raise IndexError
  else match nth_error l (Z.to_nat j) with
       | Some x => Ok x
       | None => Raise IndexError
       end.

(** ** Bytes and [struct.pack] *)

Definition Z_of_byte (b : byte) : Z := Z.of_N (Byte.to_N b).

Definition byte_of_Z (z : Z) : byte :=
  match Byte.of_N (Z.to_N (z mod 256)) with
  | Some b => b
  | None => x00
  end.

(** [struct.pack('<H', x)]. *)
Definition pack_H (x : Z) : result (list byte) :=
  if (x <? 0) || (65535 <? x) then Raise StructError
  else Ok [byte_of_Z x; byte_of_Z (x / 256)].

(** [struct.pack('<B', x)]. *)
Definition pack_B (x : Z) : result (list byte) :=
  if (x <? 0) || (255 <? x) then Raise StructError
  else Ok [byte_of_Z x].

(** ** The indexer *)

(** The loop of [Arrays.index]: [bigindex] and [area] are the accumulators,
    [index[i]] and [dimensions[i]] are read in step. Subtracting an unset
    base from an integer is a [TypeError]. *)
Fixpoint index_loop (base : option Z) (index dimensions : list Z)
  (bigindex area : Z) : result Z :=
  match index with
  | [] => Ok bigindex
  | i :: index' =>
      match base with
      | None => Raise TypeError
      | Some b =>
          match dimensions with
          | [] => Raise IndexError
          | d :: dimensions' =>
              index_loop base index' dimensions'
                (bigindex + area * (i - b)) (area * (d + 1 - b))
          end
      end
  end.

(** [Arrays.index], with [self._base] as an argument. *)
Definition index (base : option Z) (idx dimensions : list Z) : result Z :=
  index_loop base idx dimensions 0 1.

(** [Arrays.array_len]. *)
Definition array_len (base : option Z) (dimensions : list Z) : result Z :=
  match index base dimensions dimensions with
  | Ok bigindex => Ok (bigindex + 1)
  | Raise e => Raise e
  end.

(** The direct product over the axes of [d + 1 - base]. *)
Definition axes_product (b : Z) (dimensions : list Z) : Z :=
  fold_right (fun d acc => (d + 1 - b) * acc) 1 dimensions.


(** ** Collaborators *)

(** [name[-1]], the sigil of a variable name. *)
Fixpoint last_char (name : string) : option ascii :=
  match name with
  | EmptyString => None
  | String c rest =>
      match rest with
      | EmptyString => Some c
      | String _ _ => last_char rest
      end
  end.

(** What [arrays.py] uses of the modules [values] and [scalars], which are
    not part of this development: the width of an element by the name's
    sigil, the byte encoding of a value converted to a sigil's type
    ([values.to_type(sigil, value).to_bytes()]), and the in-memory encoding
    of a variable name. [Sprite] is what the cache slot holds. The two laws
    are the contract of [values]: a width is a positive number of bytes, and
    an encoded value has the width of its type. *)
Class Collaborators : Type := {
  Value : Type;
  Sprite : Type;
  size_bytes : string -> Z;
  to_bytes : ascii -> Value -> result (list byte);
  get_name_in_memory : string -> Z -> result Z;
  size_bytes_pos : forall name, 0 < size_bytes name;
  to_bytes_size : forall name sigil v bs,
    last_char name = Some sigil ->
    to_bytes sigil v = Ok bs ->
    Z.of_nat (List.length bs) = size_bytes name
}.

(** The memory object [self._memory], as the answers it gives at the time of
    a call: whether [check_free(size, err)] lets a request of [size] bytes
    pass, and the address [var_current()] at which the array arena starts. *)
Record Memory : Type := mkMemory {
  check_free : Z -> bool;
  var_current : Z
}.

Section Model.

Context {C : Collaborators}.

(** ** The state of an [Arrays] object *)

Record Arrays : Type := mkArrays {
  _dims : Dict.t (list Z);
  _buffers : Dict.t (list byte);
  _cache : Dict.t (option Sprite);
  _array_memory : Dict.t (Z * Z);
  current : Z;
  _base : option Z
}.

Definition with_dims (d : Dict.t (list Z)) (s : Arrays) : Arrays :=
  mkArrays d (_buffers s) (_cache s) (_array_memory s) (current s) (_base s).
Definition with_buffers (b : Dict.t (list byte)) (s : Arrays) : Arrays :=
  mkArrays (_dims s) b (_cache s) (_array_memory s) (current s) (_base s).
Definition with_cache (c : Dict.t (option Sprite)) (s : Arrays) : Arrays :=
  mkArrays (_dims s) (_buffers s) c (_array_memory s) (current s) (_base s).
Definition with_array_memory (m : Dict.t (Z * Z)) (s : Arrays) : Arrays :=
  mkArrays (_dims s) (_buffers s) (_cache s) m (current s) (_base s).
Definition with_current (c : Z) (s : Arrays) : Arrays :=
  mkArrays (_dims s) (_buffers s) (_cache s) (_array_memory s) c (_base s).
Definition with_base (b : option Z) (s : Arrays) : Arrays :=
  mkArrays (_dims s) (_buffers s) (_cache s) (_array_memory s) (current s) b.

(** ** The monad of the methods

    A method takes the object's state and returns the state it leaves with
    a value or a raised exception; what was mutated before a [raise] stays
    mutated. *)
Definition M (A : Type) : Type := Arrays -> Arrays * result A.

Definition ret {A} (a : A) : M A := fun s => (s, Ok a).
Definition raise {A} (e : exception) : M A := fun s => (s, Raise e).
Definition bind {A B} (m : M A) (k : A -> M B) : M B :=
  fun s =>
    match m s with
    | (s', Ok a) => k a s'
    | (s', Raise e) => (s', Raise e)
    end.
Definition lift {A} (r : result A) : M A := fun s => (s, r).
Definition gets {A} (f : Arrays -> A) : M A := fun s => (s, Ok (f s)).
Definition modify (f : Arrays -> Arrays) : M unit := fun s => (f s, Ok tt).

(** Sequencing of the pure computations that can raise. *)
Definition and_then {A B} (r : result A) (k : A -> result B) : result B :=
  match r with
  | Ok a => k a
  | Raise e => Raise e
  end.

End Model.

Declare Scope method_scope.
Delimit Scope method_scope with method.
Notation "x <- m ;; k" := (bind m (fun x => k))
  (at level 61, m at next level, right associativity) : method_scope.
Notation "m ;; k" := (bind m (fun _ => k))
  (at level 61, right associativity) : method_scope.
Notation "'try' x := r 'in' k" := (and_then r (fun x => k))
  (at level 10, x name, r at level 100, k at level 200).

Section Methods.

Context {C : Collaborators}.
Open Scope method_scope.

(** [Arrays.__init__]: [clear()], then OPTION BASE unset. *)
Definition init : Arrays := mkArrays [] [] [] [] 0 None.

(** [Arrays.clear]. *)
Definition clear : M unit :=
  modify (fun s => mkArrays [] [] [] [] 0 (_base s)).

(** [Arrays.clear_base]. *)
Definition clear_base : M unit := modify (with_base None).

(** [Arrays.base]. *)
Definition base (b : Z) : M unit :=
  if negb ((b =? 1) || (b =? 0)) then raise (RunError STX)
  else
    old <- gets _base ;;
    match old with
    | Some b' =>
        if negb (b =? b') then raise (RunError DUPLICATE_DEFINITION)
        else modify (with_base (Some b))
    | None => modify (with_base (Some b))
    end.

(** [1 + max(3, len(name)) + 3 + 2*len(dimensions)]. *)
Definition record_len (name : string) (dimensions : list Z) : Z :=
  1 + Z.max 3 (Z.of_nat (String.length name)) + 3
  + 2 * Z.of_nat (List.length dimensions).

(** The loop of [erase] over the remaining entries of [_array_memory]. *)
Definition compact (erased_name_ptr freed_bytes : Z) (m : Dict.t (Z * Z))
  : Dict.t (Z * Z) :=
  map (fun '(name, (name_ptr, array_ptr)) =>
         if erased_name_ptr <? name_ptr
         then (name, (name_ptr - freed_bytes, array_ptr - freed_bytes))
         else (name, (name_ptr, array_ptr))) m.

(** [Arrays.erase]. *)
Definition erase (name : string) : M unit :=
  dims <- gets _dims ;;
  match Dict.get name dims with
  | None => raise (RunError IFC)
  | Some dimensions =>
      let record_len := record_len name dimensions in
      b <- gets _base ;;
      len <- lift (array_len b dimensions) ;;
      let freed_bytes := len * size_bytes name + record_len in
      am <- gets _array_memory ;;
      ptrs <- lift (Dict.lookup name am) ;;
      let erased_name_ptr := fst ptrs in
      d <- lift (Dict.del name dims) ;;
      modify (with_dims d) ;;
      bufs <- gets _buffers ;;
      d <- lift (Dict.del name bufs) ;;
      modify (with_buffers d) ;;
      cache <- gets _cache ;;
      d <- lift (Dict.del name cache) ;;
      modify (with_cache d) ;;
      d <- lift (Dict.del name am) ;;
      modify (with_array_memory (compact erased_name_ptr freed_bytes d)) ;;
      modify (fun s => with_current (current s - freed_bytes) s)
  end.

(** [Arrays.array_size_bytes]. *)
Definition array_size_bytes (name : string) (s : Arrays) : result Z :=
  match Dict.get name (_dims s) with
  | None => Ok 0
  | Some dimensions =>
      try len := array_len (_base s) dimensions in
      Ok (len * size_bytes name)
  end.

(** [Arrays.get_cache] and [Arrays.set_cache]. *)
Definition get_cache (name : string) (s : Arrays) : result (option Sprite) :=
  Dict.lookup name (_cache s).

Definition set_cache (name : string) (item : option Sprite) : M unit :=
  modify (fun s => with_cache (Dict.set name item (_cache s)) s).

(** [i < self._base]; in Python 2 no integer is below [None]. *)
Definition lt_base (i : Z) (b : option Z) : bool :=
  match b with
  | Some b => i <? b
  | None => false
  end.

(** The loop of [dim] over the dimensions. *)
Fixpoint dim_check (b : option Z) (dimensions : list Z) : result unit :=
  match dimensions with
  | [] => Ok tt
  | d :: dimensions' =>
      if d <? 0 then Raise (RunError IFC)
      else if lt_base d b then Raise (RunError SUBSCRIPT_OUT_OF_RANGE)
      else dim_check b dimensions'
  end.

(** [Arrays.dim]. *)
Definition dim (mem : Memory) (name : string) (dimensions : list Z) : M unit :=
  old <- gets _base ;;
  match old with
  | None => modify (with_base (Some 0))
  | Some _ => ret tt
  end ;;
  dims <- gets _dims ;;
  if Dict.contains name dims then raise (RunError DUPLICATE_DEFINITION)
  else
    b <- gets _base ;;
    lift (dim_check b dimensions) ;;
    size <- lift (array_len b dimensions) ;;
    name_ptr <- gets current ;;
    let record_len := record_len name dimensions in
    let array_ptr := name_ptr + record_len in
    let array_bytes := size * size_bytes name in
    if negb (check_free mem (record_len + array_bytes))
    then raise (RunError OUT_OF_MEMORY)
    else
      modify (fun s => with_current (current s + (record_len + array_bytes)) s) ;;
      modify (fun s => with_array_memory
                         (Dict.set name (name_ptr, array_ptr) (_array_memory s)) s) ;;
      modify (fun s => with_buffers
                         (Dict.set name (repeat x00 (Z.to_nat array_bytes))
                            (_buffers s)) s) ;;
      modify (fun s => with_dims (Dict.set name dimensions (_dims s)) s) ;;
      modify (fun s => with_cache (Dict.set name None (_cache s)) s).

(** The loop of [check_dim] over [zip(index, dimensions)]. *)
Fixpoint check_index (b : option Z) (idx dimensions : list Z) : result unit :=
  match idx, dimensions with
  | i :: idx', d :: dimensions' =>
      if i <? 0 then Raise (RunError IFC)
      else if lt_base i b || (d <? i)
           then Raise (RunError SUBSCRIPT_OUT_OF_RANGE)
           else check_index b idx' dimensions'
  | _, _ => Ok tt
  end.

(** [Arrays.check_dim]. The bytearray [lst] it returns is an object shared
    with [_buffers]; the model returns its key. *)
Definition check_dim (mem : Memory) (name : string) (idx : list Z)
  : M (list Z * string) :=
  dims <- gets _dims ;;
  dimensions <-
    match Dict.get name dims with
    | Some dimensions => ret dimensions
    | None =>
        let dimensions := repeat 10 (List.length idx) in
        dim mem name dimensions ;; ret dimensions
    end ;;
  bufs <- gets _buffers ;;
  lift (Dict.lookup name bufs) ;;
  if negb (Nat.eqb (List.length idx) (List.length dimensions))
  then raise (RunError SUBSCRIPT_OUT_OF_RANGE)
  else
    b <- gets _base ;;
    lift (check_index b idx dimensions) ;;
    ret (dimensions, name).

(** ** Element access *)

(** A [memoryview] slice: the key of the bytearray it aliases and the
    bounds of the window, normalised when the slice is taken. *)
Record View : Type := mkView {
  view_of : string;
  view_start : Z;
  view_stop : Z
}.

(** The bytes seen through a view in a given state. *)
Definition view_bytes (s : Arrays) (v : View) : list byte :=
  match Dict.get (view_of v) (_buffers s) with
  | Some buf =>
      firstn (Z.to_nat (view_stop v - view_start v))
        (skipn (Z.to_nat (view_start v)) buf)
  | None => []
  end.

(** [Arrays.view_buffer]. *)
Definition view_buffer (mem : Memory) (name : string) (idx : list Z) : M View :=
  r <- check_dim mem name idx ;;
  let dimensions := fst r in
  let lst := snd r in
  b <- gets _base ;;
  bigindex <- lift (index b idx dimensions) ;;
  let bytesize := size_bytes name in
  bufs <- gets _buffers ;;
  buf <- lift (Dict.lookup lst bufs) ;;
  let len := Z.of_nat (List.length buf) in
  let lo := slice_bound len (bigindex * bytesize) in
  let hi := slice_bound len ((bigindex + 1) * bytesize) in
  ret (mkView lst lo (Z.max lo hi)).

(** [Arrays.get]: [values.create] wraps the view without copying, so the
    value's underlying bytes are [view_bytes] of the view returned here. *)
Definition get (mem : Memory) (name : string) (idx : list Z) : M View :=
  view_buffer mem name idx.

(** [view[:] = bs]: a memoryview cannot change size. *)
Definition view_assign (v : View) (bs : list byte) : M unit :=
  if negb (Z.of_nat (List.length bs) =? view_stop v - view_start v)
  then raise ValueError
  else
    bufs <- gets _buffers ;;
    buf <- lift (Dict.lookup (view_of v) bufs) ;;
    modify (with_buffers
              (Dict.set (view_of v)
                 (firstn (Z.to_nat (view_start v)) buf ++ bs
                  ++ skipn (Z.to_nat (view_stop v)) buf) bufs)).

(** [Arrays.set]: the right-hand side is evaluated before the view. *)
Definition set (mem : Memory) (name : string) (idx : list Z) (value : Value)
  : M unit :=
  match last_char name with
  | None => raise IndexError
  | Some sigil =>
      bs <- lift (to_bytes sigil value) ;;
      v <- view_buffer mem name idx ;;
      view_assign v bs ;;
      modify (fun s => with_cache (Dict.set name None (_cache s)) s)
  end.

(** ** Addresses *)

(** [Arrays.varptr]. *)
Definition varptr (mem : Memory) (name : string) (indices : list Z)
  (s : Arrays) : result Z :=
  try dimensions := Dict.lookup name (_dims s) in
  try ptrs := Dict.lookup name (_array_memory s) in
  let array_ptr := snd ptrs in
  try bigindex := index (_base s) indices dimensions in
  Ok (var_current mem + array_ptr + size_bytes name * bigindex).

(** The loop of [dereference]: besides [found_addr] and [found_name] it
    leaves the loop variable [name] bound to the last key visited. *)
Fixpoint dereference_loop (vc address : Z) (items : Dict.t (Z * Z))
  (found_addr : Z) (found_name name : option string)
  : Z * option string * option string :=
  match items with
  | [] => (found_addr, found_name, name)
  | (n, data) :: items' =>
      let addr := vc + snd data in
      if (found_addr <? addr) && (addr <=? address)
      then dereference_loop vc address items' addr (Some n) (Some n)
      else dereference_loop vc address items' found_addr found_name (Some n)
  end.

(** [Arrays.dereference]. The result is the byte string handed to
    [values.from_bytes], or [None]. *)
Definition dereference (mem : Memory) (address : Z) (s : Arrays)
  : result (option (list byte)) :=
  match dereference_loop (var_current mem) address (_array_memory s)
          (-1) None None with
  | (found_addr, found_name, name) =>
      match found_name with
      | None => Ok None
      | Some EmptyString => Ok None
      | Some _ =>
          match name with
          | None => Raise UnboundLocalError
          | Some name =>
              try lst := Dict.lookup name (_buffers s) in
              let offset := address - found_addr in
              Ok (Some (slice lst offset (offset + size_bytes name)))
          end
      end
  end.

(** The loop of [get_memory]. *)
Fixpoint get_memory_loop (address : Z) (items : Dict.t (Z * Z))
  (name_addr arr_addr : Z) (the_arr : option string)
  : Z * Z * option string :=
  match items with
  | [] => (name_addr, arr_addr, the_arr)
  | (name, (name_try, arr_try)) :: items' =>
      if (name_try <=? address) && (name_addr <? name_try)
      then get_memory_loop address items' name_try arr_try (Some name)
      else get_memory_loop address items' name_addr arr_addr the_arr
  end.

(** The loop of [get_memory] that appends the dimensions to [data_rep]. *)
Fixpoint pack_dimensions (b : option Z) (dimensions : list Z)
  (data_rep : list byte) : result (list byte) :=
  match dimensions with
  | [] => Ok data_rep
  | d :: dimensions' =>
      match b with
      | None => Raise TypeError
      | Some b =>
          try w := pack_H (d + 1 - b) in
          pack_dimensions (Some b) dimensions' (data_rep ++ w)
      end
  end.

(** The header record [get_memory] rebuilds for an array. *)
Definition data_rep (the_arr : string) (s : Arrays) : result (list byte) :=
  try dimensions := Dict.lookup the_arr (_dims s) in
  try size := array_size_bytes the_arr s in
  let n := Z.of_nat (List.length dimensions) in
  try h := pack_H (size + 1 + 2 * n) in
  try c := pack_B n in
  pack_dimensions (_base s) dimensions (h ++ c).

(** [Arrays.get_memory]. The result is an integer: -1, a byte of a buffer,
    what [get_name_in_memory] returns, or the byte found in the record
    (in Python 2 a one-character string, taken here for its byte value). *)
Definition get_memory (mem : Memory) (address : Z) (s : Arrays) : result Z :=
  match get_memory_loop address (_array_memory s) (-1) (-1) None with
  | (name_addr, arr_addr, None) => Ok (-1)
  | (name_addr, arr_addr, Some the_arr) =>
      let var_current := var_current mem in
      if var_current + arr_addr <=? address then
        let offset := address - arr_addr - var_current in
        try size := array_size_bytes the_arr s in
        if size <=? offset then Ok (-1)
        else
          try byte_array := Dict.lookup the_arr (_buffers s) in
          try b := item byte_array offset in
          Ok (Z_of_byte b)
      else
        let offset := address - name_addr - var_current in
        let name_len := Z.max 3 (Z.of_nat (String.length the_arr)) + 1 in
        if offset <? name_len then get_name_in_memory the_arr offset
        else
          let offset := offset - name_len in
          try rep := data_rep the_arr s in
          try b := item rep offset in
          Ok (Z_of_byte b)
  end.

(** ** Sequences of operations *)

(** The calls that change an [Arrays] object, [clear_base] apart: the
    interpreter unsets the base only together with [clear]. *)
Inductive operation : Type :=
| OpDim (mem : Memory) (name : string) (dimensions : list Z)
| OpErase (name : string)
| OpClear
| OpBase (b : Z)
| OpGet (mem : Memory) (name : string) (idx : list Z)
| OpSet (mem : Memory) (name : string) (idx : list Z) (value : Value)
| OpSetCache (name : string) (item : option Sprite).

Definition step (op : operation) : M unit :=
  match op with
  | OpDim mem name dimensions => dim mem name dimensions
  | OpErase name => erase name
  | OpClear => clear
  | OpBase b => base b
  | OpGet mem name idx => get mem name idx ;; ret tt
  | OpSet mem name idx value => set mem name idx value
  | OpSetCache name item => set_cache name item
  end.

(** The state after a sequence of calls on a fresh object; a call that
    raises leaves the state it reached and the sequence goes on. *)
Fixpoint run (ops : list operation) (s : Arrays) : Arrays :=
  match ops with
  | [] => s
  | op :: ops' => run ops' (fst (step op s))
  end.

End Methods.

(** ** Accessors and bulk views *)

Section Accessors.

Context {C : Collaborators}.
Open Scope method_scope.

(** [Arrays.__contains__]. *)
Definition contains (varname : string) (s : Arrays) : bool :=
  Dict.contains varname (_dims s).

(** [Arrays.__iter__]: the keys of [_dims]. *)
Definition iter (s : Arrays) : list string := Dict.keys (_dims s).

(** [Arrays.dimensions]. *)
Definition dimensions (name : string) (s : Arrays) : result (list Z) :=
  Dict.lookup name (_dims s).

(** [Arrays.view_full_buffer]: a view of the whole bytearray. *)
Definition view_full_buffer (name : string) (s : Arrays) : result View :=
  try buf := Dict.lookup name (_buffers s) in
  Ok (mkView name 0 (Z.of_nat (List.length buf))).

(** [range(0, len, 3)]. *)
Definition range3 (len : nat) : list Z :=
  map (fun j => 3 * Z.of_nat j) (seq 0 ((len + 2) / 3)).

(** [memoryview(buf)[a:b]] for the bytearray of [name], of length [len]. *)
Definition window (name : string) (len a b : Z) : View :=
  let lo := slice_bound len a in
  let hi := slice_bound len b in
  mkView name lo (Z.max lo hi).

(** The comprehension of [get_strings] over the items of [_buffers]. *)
Fixpoint get_strings_loop (items : Dict.t (list byte)) : result (list View) :=
  match items with
  | [] => Ok []
  | (name, buf) :: items' =>
      match last_char name with
      | None => Raise IndexError
      | Some sigil =>
          let len := Z.of_nat (List.length buf) in
          let views :=
            if Ascii.eqb sigil "$"
            then map (fun i => window name len i (i + 3))
                   (range3 (List.length buf))
            else [] in
          try rest := get_strings_loop items' in
          Ok (views ++ rest)
      end
  end.

(** [Arrays.get_strings]. *)
Definition get_strings (s : Arrays) : result (list View) :=
  get_strings_loop (_buffers s).

(** ** Conversion to Python lists *)

(** A nested Python list as [to_list] builds it: an item is the value
    handle of an element, the view on which [to_value()] is called, or a
    list of items. *)
#[warnings="-register-all"]
Inductive pylist : Type :=
| PyValue (v : View)
| PyList (items : list pylist).

(** [xrange(n)]. *)
Definition xrange (n : Z) : list Z := map Z.of_nat (seq 0 (Z.to_nat n)).

(** [self._base or 0]. *)
Definition base_or_0 (b : option Z) : Z :=
  match b with
  | Some b => b
  | None => 0
  end.

(** A list comprehension [[f(x) for x in l]] whose body is a method call:
    the calls run in order and the first exception ends it. *)
Fixpoint for_each {A B} (f : A -> M B) (l : list A) : M (list B) :=
  match l with
  | [] => ret []
  | x :: l' => y <- f x ;; ys <- for_each f l' ;; ret (y :: ys)
  end.

(** [Arrays._to_list]. *)
Fixpoint _to_list (mem : Memory) (name : string)
  (index remaining_dimensions : list Z) {struct remaining_dimensions}
  : M (list pylist) :=
  match remaining_dimensions with
  | [] => ret []
  | d :: rest =>
      match rest with
      | [] =>
          for_each (fun i =>
                      b <- gets _base ;;
                      v <- get mem name (index ++ [i + base_or_0 b]) ;;
                      ret (PyValue v))
            (xrange d)
      | _ :: _ =>
          for_each (fun i =>
                      b <- gets _base ;;
                      l <- _to_list mem name (index ++ [i + base_or_0 b])
                             rest ;;
                      ret (PyList l))
            (xrange d)
      end
  end.

(** [Arrays.to_list]. *)
Definition to_list (mem : Memory) (name : string) : M (list pylist) :=
  dims <- gets _dims ;;
  match Dict.get name dims with
  | Some indices => _to_list mem name [] indices
  | None => ret []
  end.

End Accessors.

(** ** The memory layout *)

Section Layout.

Context {C : Collaborators}.

(** The records of the arena in address order: starting at [start], each
    array has its header at the running address, its data right after the
    [record_len] bytes of the header, and the next record right after its
    data; the last record ends at [stop]. The three dictionaries list the
    arrays in the same order, every dimension is at least the base [b], and
    a buffer holds the product of the axes' lengths many elements. *)
Inductive layout (b : Z)
  : Z -> Dict.t (list Z) -> Dict.t (list byte) -> Dict.t (Z * Z) -> Z -> Prop :=
| layout_nil (start : Z) : layout b start [] [] [] start
| layout_cons (start : Z) (name : string) (d : list Z) (buf : list byte)
    (ds : Dict.t (list Z)) (bs : Dict.t (list byte)) (ms : Dict.t (Z * Z))
    (stop : Z) :
    Forall (fun x => b <= x) d ->
    Z.of_nat (List.length buf) = axes_product b d * size_bytes name ->
    layout b (start + record_len name d + Z.of_nat (List.length buf)) ds bs ms stop ->
    layout b start ((name, d) :: ds) ((name, buf) :: bs)
      ((name, (start, start + record_len name d)) :: ms) stop.

(** The states the methods keep to: names are declared once, a declared
    name has a cache entry, no array exists while OPTION BASE is unset, and
    the arena is laid out from 0 to [current]. *)
Definition wf (s : Arrays) : Prop :=
  NoDup (Dict.keys (_dims s))
  /\ (forall name, In name (Dict.keys (_dims s)) ->
                   In name (Dict.keys (_cache s)))
  /\ match _base s with
     | None =>
         _dims s = [] /\ _buffers s = [] /\ _array_memory s = []
         /\ current s = 0
     | Some b =>
         (b = 0 \/ b = 1)
         /\ layout b 0 (_dims s) (_buffers s) (_array_memory s) (current s)
     end.

(** A descriptor of the table: the entries of one name in the three
    dictionaries. *)
Definition descriptor (s : Arrays) (name : string)
  (dimensions : list Z) (header_address data_address : Z) (buf : list byte)
  : Prop :=
  Dict.get name (_dims s) = Some dimensions
  /\ Dict.get name (_array_memory s) = Some (header_address, data_address)
  /\ Dict.get name (_buffers s) = Some buf.

(** The tiling of the arena: every declared name has a descriptor, the data
    of a descriptor starts where its header of [record_len] bytes ends, the
    spans header-then-data of two descriptors do not overlap, every span
    lies in [0, current), and every address of [0, current) lies in a
    span. *)
Definition tiling (s : Arrays) : Prop :=
  (forall name, Dict.contains name (_dims s) = true ->
     exists d h a buf, descriptor s name d h a buf)
  /\ (forall name d h a buf, descriptor s name d h a buf ->
        a = h + 1 + Z.max 3 (Z.of_nat (String.length name)) + 3
            + 2 * Z.of_nat (List.length d))
  /\ (forall n1 d1 h1 a1 b1 n2 d2 h2 a2 b2,
        n1 <> n2 ->
        descriptor s n1 d1 h1 a1 b1 ->
        descriptor s n2 d2 h2 a2 b2 ->
        a1 + Z.of_nat (List.length b1) <= h2
        \/ a2 + Z.of_nat (List.length b2) <= h1)
  /\ (forall name d h a buf, descriptor s name d h a buf ->
        0 <= h /\ h < a /\ a + Z.of_nat (List.length buf) <= current s)
  /\ (forall x, 0 <= x < current s ->
        exists name d h a buf,
          descriptor s name d h a buf
          /\ h <= x < a + Z.of_nat (List.length buf)).

(** An index is legal for given dimensions: the arity matches and every
    component lies between the base and the maximum of its axis. *)
Definition legal_index (b : Z) (idx dimensions : list Z) : Prop :=
  Forall2 (fun i d => b <= i <= d) idx dimensions.

(** The table [s0] listed in another order: every dictionary of [s] holds
    the entries of the one of [s0], in any order. The states [wf] describes
    list the arrays by address; the tables Python iterates over are the
    relistings of those. *)
Definition relisted (s0 s : Arrays) : Prop :=
  Permutation (_dims s0) (_dims s)
  /\ Permutation (_buffers s0) (_buffers s)
  /\ Permutation (_cache s0) (_cache s)
  /\ Permutation (_array_memory s0) (_array_memory s)
  /\ current s = current s0
  /\ _base s = _base s0.

End Layout.

(** ** Outcomes of the methods

    The states [dim] and [erase] leave, and what [check_dim] returns once
    the dimensions are known; the properties below show that the methods
    compute them. *)

Section Outcomes.

Context {C : Collaborators}.

(** The state [dim] leaves when it raises: only an unset base is resolved. *)
Definition resolve_base (s : Arrays) : Arrays :=
  match _base s with
  | None => with_base (Some 0) s
  | Some _ => s
  end.

Definition resolved_base (s : Arrays) : Z :=
  match _base s with
  | None => 0
  | Some b => b
  end.

(** The state [dim] leaves when it succeeds. *)
Definition declared (name : string) (dimensions : list Z) (size : Z)
  (s : Arrays) : Arrays :=
  let record_len := record_len name dimensions in
  let array_bytes := size * size_bytes name in
  mkArrays
    (Dict.set name dimensions (_dims s))
    (Dict.set name (repeat x00 (Z.to_nat array_bytes)) (_buffers s))
    (Dict.set name None (_cache s))
    (Dict.set name (current s, current s + record_len) (_array_memory s))
    (current s + (record_len + array_bytes))
    (Some (resolved_base s)).

(** What [check_dim] does once the dimensions are known. *)
Definition checked (name : string) (idx dimensions : list Z) (s : Arrays)
  : result (list Z * string) :=
  try _ := Dict.lookup name (_buffers s) in
  if negb (Nat.eqb (List.length idx) (List.length dimensions))
  then Raise (RunError SUBSCRIPT_OUT_OF_RANGE)
  else try _ := check_index (_base s) idx dimensions in
       Ok (dimensions, name).

(** The bytes [erase] frees for an array of given dimensions. *)
Definition freed_bytes (b : Z) (name : string) (dimensions : list Z) : Z :=
  axes_product b dimensions * size_bytes name + record_len name dimensions.

(** The state [erase] leaves when it succeeds. *)
Definition erased (b : Z) (name : string) (dimensions : list Z)
  (erased_name_ptr : Z) (s : Arrays) : Arrays :=
  let freed := freed_bytes b name dimensions in
  mkArrays
    (Dict.remove name (_dims s))
    (Dict.remove name (_buffers s))
    (Dict.remove name (_cache s))
    (compact erased_name_ptr freed (Dict.remove name (_array_memory s)))
    (current s - freed)
    (_base s).

End Outcomes.

(** ** Closed forms

    What the loops compute on well-formed input, for the statements of the
    properties below. *)

(** The flat offset of an index: the mixed-radix number with the digit
    [i - b] and the radix [d + 1 - b] on each axis, first axis lowest. *)
Fixpoint flat_offset (b : Z) (idx dimensions : list Z) : Z :=
  match idx, dimensions with
  | i :: idx', d :: dimensions' =>
      (i - b) + (d + 1 - b) * flat_offset b idx' dimensions'
  | _, _ => 0
  end.

(** The buffer with [bs] written over the window from [lo]. *)
Definition spliced (buf bs : list byte) (lo : Z) : list byte :=
  firstn (Z.to_nat lo) buf ++ bs
  ++ skipn (Z.to_nat (lo + Z.of_nat (List.length bs))) buf.

(** The nested list of the element views of an array of dimensions [dims]
    and element width [size]: along each axis the items are the elements
    with the indices [b], [b + 1], ..., [b + d - 1], [d] the dimension of
    the axis; [index] is the index so far. *)
Fixpoint grid (name : string) (b size : Z) (dims index remaining : list Z)
  : list pylist :=
  match remaining with
  | [] => []
  | d :: rest =>
      match rest with
      | [] =>
          map (fun i =>
                 let k := flat_offset b (index ++ [i + b]) dims in
                 PyValue (mkView name (k * size) ((k + 1) * size)))
            (xrange d)
      | _ :: _ =>
          map (fun i => PyList (grid name b size dims (index ++ [i + b]) rest))
            (xrange d)
      end
  end.

(** A name is a string array's when its sigil is [$]. *)
Definition is_string_name (name : string) : bool :=
  match last_char name with
  | Some sigil => Ascii.eqb sigil "$"
  | None => false
  end.

(** ** A concrete session

    The scenarios below run the methods with the widths of the four GW-BASIC
    types (string pointer 3, integer 2, single 4, double 8 bytes), values
    that are their own byte strings, and any encoding of names. *)

Definition sigil_width (sigil : ascii) : Z :=
  if Ascii.eqb sigil "$" then 3
  else if Ascii.eqb sigil "%" then 2
  else if Ascii.eqb sigil "#" then 8
  else 4.

Definition sigil_size (name : string) : Z :=
  match last_char name with
  | Some sigil => sigil_width sigil
  | None => 4
  end.

Definition raw_bytes (sigil : ascii) (v : list byte) : result (list byte) :=
  if Z.of_nat (List.length v) =? sigil_width sigil then Ok v
  else Raise (RunError IFC).

Definition session (name_in_memory : string -> Z -> result Z) : Collaborators.
Proof.
  refine {| Value := list byte;
            Sprite := unit;
            size_bytes := sigil_size;
            to_bytes := raw_bytes;
            get_name_in_memory := name_in_memory |}.
  - intro name. unfold sigil_size, sigil_width.
    destruct (last_char name) as [c|]; [|lia].
    destruct (Ascii.eqb c "$"); [lia|].
    destruct (Ascii.eqb c "%"); [lia|].
    destruct (Ascii.eqb c "#"); lia.
  - intros name sigil v bs Hlast Henc. unfold sigil_size, raw_bytes in *.
    rewrite Hlast.
    destruct (Z.of_nat (List.length v) =? sigil_width sigil) eqn:E;
      [|discriminate].
    injection Henc as <-. apply Z.eqb_eq in E. exact E.
Defined.

(** The scenarios: a memory object that lets requests below 60000 bytes
    pass and has the array arena start at address 4720. *)
Definition pc_memory : Memory :=
  mkMemory (fun size => size <? 60000) 4720.

(** The state after [DIM A%(3)], [DIM B%(2)] on a fresh object. *)
Definition dim_A_B (nim : string -> Z -> result Z) : @Arrays (session nim) :=
  @run (session nim)
    [OpDim pc_memory "A%"%string [3]; OpDim pc_memory "B%"%string [2]] (@init (session nim)).

(** That state after [A%(0)] and [B%(0)] were assigned the two-byte values
    [a0] and [b0]. *)
Definition two_arrays (nim : string -> Z -> result Z) (a0 b0 : list byte)
  : @Arrays (session nim) :=
  {| _dims := [("A%"%string, [3]); ("B%"%string, [2])];
     _buffers := [("A%"%string, a0 ++ repeat x00 6); ("B%"%string, b0 ++ repeat x00 4)];
     _cache := [("A%"%string, None); ("B%"%string, None)];
     _array_memory := [("A%"%string, (0, 9)); ("B%"%string, (17, 26))];
     current := 32;
     _base := Some 0 |}.

(** The same table when the dictionaries iterate over [B%] first. *)
Definition two_arrays_B_first (nim : string -> Z -> result Z)
  (a0 b0 : list byte) : @Arrays (session nim) :=
  {| _dims := [("B%"%string, [2]); ("A%"%string, [3])];
     _buffers := [("B%"%string, b0 ++ repeat x00 4); ("A%"%string, a0 ++ repeat x00 6)];
     _cache := [("B%"%string, None); ("A%"%string, None)];
     _array_memory := [("B%"%string, (17, 26)); ("A%"%string, (0, 9))];
     current := 32;
     _base := Some 0 |}.

(** The state after [DIM A%(d1, d2)], [DIM B%(2)] on a fresh object. *)
Definition dim_A2_B (nim : string -> Z -> result Z) (d1 d2 : Z)
  : @Arrays (session nim) :=
  @run (session nim)
    [OpDim pc_memory "A%"%string [d1; d2]; OpDim pc_memory "B%"%string [2]]
    (@init (session nim)).

(** The state after [DIM A%(3)], [DIM B%(2)], [DIM C%(1)] on a fresh
    object. *)
Definition dim_A_B_C (nim : string -> Z -> result Z) : @Arrays (session nim) :=
  @run (session nim)
    [OpDim pc_memory "A%"%string [3]; OpDim pc_memory "B%"%string [2];
     OpDim pc_memory "C%"%string [1]]
    (@init (session nim)).

(** The same table when the dictionaries iterate over [C%] first and over
    [A%] last. *)
Definition dim_A_B_C_relisted (nim : string -> Z -> result Z)
  : @Arrays (session nim) :=
  {| _dims := [("C%"%string, [1]); ("B%"%string, [2]); ("A%"%string, [3])];
     _buffers := [("C%"%string, repeat x00 4); ("B%"%string, repeat x00 6);
                  ("A%"%string, repeat x00 8)];
     _cache := [("C%"%string, None); ("B%"%string, None);
                ("A%"%string, None)];
     _array_memory := [("C%"%string, (32, 41)); ("B%"%string, (17, 26));
                       ("A%"%string, (0, 9))];
     current := 45;
     _base := Some 0 |}.

(** The table after [DIM S$(0)], [DIM A%(1)], [DIM T$(0)] with the string
    pointers [p] and [q] stored in [S$(0)] and [T$(0)], when the
    dictionaries iterate over [T$] first and over [S$] last. *)
Definition strings_T_first (nim : string -> Z -> result Z)
  (p q : list byte) : @Arrays (session nim) :=
  {| _dims := [("T$"%string, [0]); ("A%"%string, [1]); ("S$"%string, [0])];
     _buffers := [("T$"%string, q); ("A%"%string, repeat x00 4);
                  ("S$"%string, p)];
     _cache := [("T$"%string, None); ("A%"%string, None);
                ("S$"%string, None)];
     _array_memory := [("T$"%string, (25, 34)); ("A%"%string, (12, 21));
                       ("S$"%string, (0, 9))];
     current := 37;
     _base := Some 0 |}.

(** An encoding of names for the scenarios that do not read one. *)
Definition no_names : string -> Z -> result Z := fun _ _ => Raise IndexError.

(** * Properties *)

(** Projections of updated states. *)
Ltac fields :=
  cbn [_base _dims _array_memory _buffers _cache current
       with_dims with_buffers with_cache with_array_memory with_current
       with_base] in *.

(** ** The indexer *)

Lemma index_loop_self (b : Z) (dimensions : list Z) :
  forall bigindex area,
    index_loop (Some b) dimensions dimensions bigindex area
    = Ok (bigindex + area * (axes_product b dimensions - 1)).
Proof.
  induction dimensions as [|d ds IH]; intros bigindex area; simpl.
  - f_equal. lia.
  - rewrite IH. f_equal. lia.
Qed.

Lemma array_len_axes_product (b : Z) (dimensions : list Z) :
  array_len (Some b) dimensions = Ok (axes_product b dimensions).
Proof.
  unfold array_len, index. rewrite index_loop_self. f_equal. lia.
Qed.

(** C1: for a base of 0 or 1 and a dimension list with at least one axis,
    every entry at least the base, the flat length [index(d, d) + 1] of the
    mixed-radix accumulation is the product over the axes of
    [d_i + 1 - base]. *)
Theorem array_len_is_product (b : Z) (dimensions : list Z) :
  b = 0 \/ b = 1 ->
  dimensions <> [] ->
  Forall (fun d => b <= d) dimensions ->
  array_len (Some b) dimensions
  = Ok (fold_right Z.mul 1 (map (fun d => d + 1 - b) dimensions)).
Proof.
  intros _ _ _. rewrite array_len_axes_product. f_equal.
  unfold axes_product. induction dimensions as [|d ds IH]; simpl; congruence.
Qed.

Lemma array_len_is_product_witness :
  array_len (Some 1) [3; 4] = Ok 12.
Proof.
  apply (array_len_is_product 1 [3; 4]).
  - right; reflexivity.
  - discriminate.
  - repeat constructor; lia.
Defined.

(** ** Dictionaries *)

Section DictFacts.

Context {V : Type}.
Implicit Types (d : Dict.t V) (k : string) (v : V).

Lemma get_In_keys k d v : Dict.get k d = Some v -> In k (Dict.keys d).
Proof.
  induction d as [|[k' v'] d IH]; simpl; [discriminate|].
  destruct (String.eqb_spec k k') as [->|_]; intro H; [now left|].
  right. now apply IH.
Qed.

Lemma get_None_keys k d : Dict.get k d = None <-> ~ In k (Dict.keys d).
Proof.
  induction d as [|[k' v'] d IH]; simpl; [tauto|].
  destruct (String.eqb_spec k k') as [->|Hne].
  - split; [discriminate|]. intros H. exfalso. apply H. now left.
  - rewrite IH. split; [|tauto]. intros H [E|H']; [congruence|tauto].
Qed.

Lemma In_keys_get k d : In k (Dict.keys d) -> exists v, Dict.get k d = Some v.
Proof.
  intro H. destruct (Dict.get k d) as [v|] eqn:E; [now exists v|].
  apply get_None_keys in E. contradiction.
Qed.

Lemma contains_In_keys k d : Dict.contains k d = true <-> In k (Dict.keys d).
Proof.
  unfold Dict.contains. split.
  - destruct (Dict.get k d) eqn:E; [|discriminate].
    intros _. eapply get_In_keys; eauto.
  - intro H. apply In_keys_get in H as [v ->]. reflexivity.
Qed.

Lemma get_set_eq k v d : Dict.get k (Dict.set k v d) = Some v.
Proof.
  induction d as [|[k' v'] d IH]; simpl.
  - now rewrite String.eqb_refl.
  - destruct (String.eqb_spec k k') as [->|Hne]; simpl.
    + now rewrite String.eqb_refl.
    + destruct (String.eqb_spec k k'); [contradiction|exact IH].
Qed.

Lemma get_set_neq k k' v d :
  k <> k' -> Dict.get k' (Dict.set k v d) = Dict.get k' d.
Proof.
  intro Hne. induction d as [|[k0 v0] d IH]; simpl.
  - destruct (String.eqb_spec k' k); [congruence|reflexivity].
  - destruct (String.eqb_spec k k0) as [->|Hne0]; simpl.
    + destruct (String.eqb_spec k' k0); [congruence|reflexivity].
    + now rewrite IH.
Qed.

Lemma set_fresh k v d :
  Dict.get k d = None -> Dict.set k v d = d ++ [(k, v)].
Proof.
  induction d as [|[k' v'] d IH]; simpl; [reflexivity|].
  destruct (String.eqb_spec k k'); [discriminate|].
  intro H. now rewrite IH.
Qed.

Lemma keys_set k k' v d :
  In k' (Dict.keys (Dict.set k v d)) <-> k' = k \/ In k' (Dict.keys d).
Proof.
  induction d as [|[k0 v0] d IH]; simpl.
  - intuition.
  - destruct (String.eqb_spec k k0) as [->|Hne]; simpl.
    + intuition.
    + rewrite IH. intuition.
Qed.

Lemma get_remove_neq k k' d :
  k <> k' -> Dict.get k' (Dict.remove k d) = Dict.get k' d.
Proof.
  intro Hne. induction d as [|[k0 v0] d IH]; simpl; [reflexivity|].
  destruct (String.eqb_spec k k0) as [->|Hne0]; simpl.
  - destruct (String.eqb_spec k' k0); [congruence|reflexivity].
  - now rewrite IH.
Qed.

Lemma keys_remove k k' d :
  In k' (Dict.keys (Dict.remove k d)) -> In k' (Dict.keys d).
Proof.
  induction d as [|[k0 v0] d IH]; simpl; [tauto|].
  destruct (String.eqb_spec k k0) as [->|Hne]; simpl; intuition.
Qed.

Lemma keys_remove_neq k k' d :
  k <> k' -> In k' (Dict.keys d) -> In k' (Dict.keys (Dict.remove k d)).
Proof.
  intros Hne H. apply In_keys_get in H as [v H].
  rewrite <- (get_remove_neq k k' d Hne) in H. eapply get_In_keys; eauto.
Qed.

Lemma NoDup_keys_remove k d :
  NoDup (Dict.keys d) -> NoDup (Dict.keys (Dict.remove k d)).
Proof.
  induction d as [|[k0 v0] d IH]; simpl; [trivial|].
  intro H. inversion H as [|? ? Hnin Hnd]; subst.
  destruct (String.eqb_spec k k0) as [->|Hne]; simpl; [assumption|].
  constructor; [|now apply IH].
  intro Hin. apply Hnin. eapply keys_remove; eauto.
Qed.

Lemma keys_remove_NoDup k d :
  NoDup (Dict.keys d) -> ~ In k (Dict.keys (Dict.remove k d)).
Proof.
  induction d as [|[k0 v0] d IH]; simpl; [tauto|].
  intro H. inversion H as [|? ? Hnin Hnd]; subst.
  destruct (String.eqb_spec k k0) as [->|Hne]; simpl; [assumption|].
  intros [E|Hin]; [congruence|]. now apply IH.
Qed.

End DictFacts.

Section Properties.

Context {C : Collaborators}.

(** ** Clearing *)

Lemma clear_spec (s : Arrays) :
  clear s = (mkArrays [] [] [] [] 0 (_base s), Ok tt).
Proof. reflexivity. Qed.

(** C7, as the code has it: [clear] empties the four dictionaries and
    resets [current] to zero in one call and leaves OPTION BASE as it was;
    the flag is unset by the separate [clear_base], and the two calls
    together give the state of a fresh object. *)
Theorem clear_keeps_base (s : Arrays) :
  clear s = (mkArrays [] [] [] [] 0 (_base s), Ok tt)
  /\ _base (fst (clear s)) = _base s
  /\ clear_base (fst (clear s)) = (init, Ok tt).
Proof. repeat split. Qed.

(** ** Declaring *)

Lemma dim_spec (mem : Memory) (name : string) (dimensions : list Z)
  (s : Arrays) :
  dim mem name dimensions s =
  if Dict.contains name (_dims s)
  then (resolve_base s, Raise (RunError DUPLICATE_DEFINITION))
  else
    match dim_check (Some (resolved_base s)) dimensions with
    | Raise e => (resolve_base s, Raise e)
    | Ok _ =>
        let size := axes_product (resolved_base s) dimensions in
        if check_free mem
             (record_len name dimensions + size * size_bytes name)
        then (declared name dimensions size s, Ok tt)
        else (resolve_base s, Raise (RunError OUT_OF_MEMORY))
    end.
Proof.
  unfold dim, bind, gets, modify, lift, ret, raise, resolve_base,
    resolved_base, declared.
  destruct s as [ds bs cs ms cur [b|]];
    cbn -[array_len dim_check record_len];
    (destruct (Dict.contains name ds); [reflexivity|]);
    (destruct (dim_check _ dimensions) as [[]|e]; [|reflexivity]);
    cbn -[array_len dim_check record_len];
    rewrite array_len_axes_product;
    (destruct (check_free mem _); reflexivity).
Qed.

Lemma dim_check_raises (b : option Z) (dimensions : list Z) (e : exception) :
  dim_check b dimensions = Raise e ->
  (e = RunError IFC /\ Exists (fun d => d < 0) dimensions)
  \/ (e = RunError SUBSCRIPT_OUT_OF_RANGE
      /\ Exists (fun d => lt_base d b = true) dimensions).
Proof.
  induction dimensions as [|d ds IH]; simpl; [discriminate|].
  destruct (Z.ltb_spec d 0) as [Hneg|Hpos].
  - intros [= <-]. left. split; [reflexivity|]. now constructor.
  - destruct (lt_base d b) eqn:Hlt.
    + intros [= <-]. right. split; [reflexivity|]. now constructor.
    + intro H. destruct (IH H) as [[-> Hex]|[-> Hex]]; [left|right];
        (split; [reflexivity|now apply Exists_cons_tl]).
Qed.

(** C10: when [dim] raises, the dictionaries of dimensions, buffers, cache
    and addresses and [current] are what they were before the call, and the
    base is as before or was unset and is now 0; the exception is
    DUPLICATE_DEFINITION for a declared name, IFC for a negative dimension,
    SUBSCRIPT_OUT_OF_RANGE for a dimension below the resolved base, or
    OUT_OF_MEMORY from the budget check. *)
Theorem dim_raises_before_mutation (mem : Memory) (name : string)
  (dimensions : list Z) (s s' : Arrays) (e : exception) :
  dim mem name dimensions s = (s', Raise e) ->
  (_dims s' = _dims s /\ _buffers s' = _buffers s /\ _cache s' = _cache s
   /\ _array_memory s' = _array_memory s /\ current s' = current s)
  /\ (_base s' = _base s \/ (_base s = None /\ _base s' = Some 0))
  /\ ((e = RunError DUPLICATE_DEFINITION
       /\ Dict.contains name (_dims s) = true)
      \/ (e = RunError IFC /\ Exists (fun d => d < 0) dimensions)
      \/ (e = RunError SUBSCRIPT_OUT_OF_RANGE
          /\ Exists (fun d => d < resolved_base s) dimensions)
      \/ (e = RunError OUT_OF_MEMORY
          /\ check_free mem
               (record_len name dimensions
                + axes_product (resolved_base s) dimensions * size_bytes name)
             = false)).
Proof.
  rewrite dim_spec. intro H.
  assert (Hframe : forall s0, s0 = resolve_base s ->
            (_dims s0 = _dims s /\ _buffers s0 = _buffers s
             /\ _cache s0 = _cache s /\ _array_memory s0 = _array_memory s
             /\ current s0 = current s)
            /\ (_base s0 = _base s \/ (_base s = None /\ _base s0 = Some 0))).
  { intros s0 ->. unfold resolve_base. destruct (_base s) eqn:E; simpl.
    - repeat split. now left.
    - repeat split. now right. }
  destruct (Dict.contains name (_dims s)) eqn:Hin.
  { injection H as <- <-. destruct (Hframe _ eq_refl) as [F B].
    split; [exact F|]. split; [exact B|]. left. now split. }
  destruct (dim_check _ dimensions) as [[]|e'] eqn:Hchk.
  - cbv zeta in H. destruct (check_free mem _) eqn:Hfree; [discriminate|].
    injection H as <- <-. destruct (Hframe _ eq_refl) as [F B].
    split; [exact F|]. split; [exact B|]. right; right; right. now split.
  - injection H as <- <-. destruct (Hframe _ eq_refl) as [F B].
    split; [exact F|]. split; [exact B|].
    destruct (dim_check_raises _ _ _ Hchk) as [[-> Hex]|[-> Hex]].
    + right; left. now split.
    + right; right; left. split; [reflexivity|].
      apply Exists_exists in Hex as [d [Hd Hlt]]. apply Exists_exists.
      exists d. split; [exact Hd|]. simpl in Hlt. now apply Z.ltb_lt.
Qed.

(** ** Resolving a name *)

Lemma check_dim_declared (mem : Memory) (name : string) (idx d : list Z)
  (s : Arrays) :
  Dict.get name (_dims s) = Some d ->
  check_dim mem name idx s = (s, checked name idx d s).
Proof.
  intro Hget. unfold check_dim, checked, bind, gets, lift, ret, raise, and_then.
  rewrite Hget.
  destruct (Dict.lookup name (_buffers s)); [|reflexivity].
  destruct (negb _); [reflexivity|].
  destruct (check_index _ idx d); reflexivity.
Qed.

Lemma check_dim_undeclared (mem : Memory) (name : string) (idx : list Z)
  (s : Arrays) :
  Dict.get name (_dims s) = None ->
  check_dim mem name idx s =
  let dimensions := repeat 10 (List.length idx) in
  match dim mem name dimensions s with
  | (s', Ok _) => (s', checked name idx dimensions s')
  | (s', Raise e) => (s', Raise e)
  end.
Proof.
  intro Hget. unfold check_dim, checked, and_then.
  unfold bind at 1. unfold gets at 1. rewrite Hget.
  unfold bind at 1. unfold bind at 1.
  cbv zeta. destruct (dim mem name _ s) as [s' [[]|e]]; [|reflexivity].
  unfold bind, gets, lift, ret, raise.
  destruct (Dict.lookup name (_buffers s')); [|reflexivity].
  destruct (negb _); [reflexivity|].
  destruct (check_index _ idx _); reflexivity.
Qed.

Lemma axes_product_repeat (b : Z) (n : nat) :
  axes_product b (repeat 10 n) = (11 - b) ^ Z.of_nat n.
Proof.
  induction n as [|n IH].
  - reflexivity.
  - rewrite Nat2Z.inj_succ, Z.pow_succ_r by lia. rewrite <- IH.
    unfold axes_product. cbn [repeat fold_right]. f_equal.
Qed.

Lemma dim_check_repeat (b : Z) (n : nat) :
  b <= 10 -> dim_check (Some b) (repeat 10 n) = Ok tt.
Proof.
  intro Hb. induction n as [|n IH]; [reflexivity|].
  cbn [repeat dim_check lt_base].
  destruct (Z.ltb_spec 10 0); [lia|].
  destruct (Z.ltb_spec 10 b); [lia|]. exact IH.
Qed.

(** C9, with the budget check made explicit: for an undeclared name, an
    index of n components and a base that is unset, 0 or 1, the access asks
    the memory object for the header and the data of an n-axis array of
    bound 10. If the request passes, the access leaves the name declared
    with n dimensions all equal to 10, a zeroed buffer and the base
    resolved (an unset one to 0), whether or not the index then turns out
    to be in range, and every later [dim] of that name raises
    DUPLICATE_DEFINITION. If the request is refused, the access raises
    OUT_OF_MEMORY, the name stays undeclared and only an unset base has
    been resolved. *)
Theorem check_dim_auto_dimension (mem : Memory) (name : string)
  (idx : list Z) (s : Arrays) :
  Dict.get name (_dims s) = None ->
  _base s = None \/ _base s = Some 0 \/ _base s = Some 1 ->
  let n := List.length idx in
  let request :=
    record_len name (repeat 10 n)
    + (11 - resolved_base s) ^ Z.of_nat n * size_bytes name in
  let s' := fst (check_dim mem name idx s) in
  (check_free mem request = true ->
   Dict.get name (_dims s') = Some (repeat 10 n)
   /\ Dict.get name (_buffers s')
      = Some (repeat x00
                (Z.to_nat ((11 - resolved_base s) ^ Z.of_nat n
                           * size_bytes name)))
   /\ _base s' = Some (resolved_base s)
   /\ (forall mem' dimensions,
         dim mem' name dimensions s'
         = (s', Raise (RunError DUPLICATE_DEFINITION))))
  /\ (check_free mem request = false ->
      check_dim mem name idx s
      = (resolve_base s, Raise (RunError OUT_OF_MEMORY))
      /\ Dict.get name (_dims s') = None
      /\ _dims s' = _dims s
      /\ _buffers s' = _buffers s
      /\ _array_memory s' = _array_memory s
      /\ current s' = current s).
Proof.
  intros Hget Hbase n request s'.
  assert (Hc : Dict.contains name (_dims s) = false)
    by (unfold Dict.contains; now rewrite Hget).
  assert (Hchk : dim_check (Some (resolved_base s)) (repeat 10 n) = Ok tt).
  { apply dim_check_repeat. unfold resolved_base.
    destruct Hbase as [->|[->| ->]]; lia. }
  split; intro Hfree.
  - assert (Hs' : s' = declared name (repeat 10 n)
                         ((11 - resolved_base s) ^ Z.of_nat n) s).
    { subst s'. rewrite check_dim_undeclared by exact Hget. cbv zeta.
      rewrite dim_spec. fold n. rewrite Hc, Hchk. cbv zeta.
      rewrite axes_product_repeat. fold request. rewrite Hfree.
      reflexivity. }
    rewrite Hs'. unfold declared. cbn [_dims _buffers _base].
    rewrite !get_set_eq. repeat split.
    intros mem' dimensions. rewrite dim_spec. cbn [_dims].
    unfold Dict.contains. rewrite get_set_eq. reflexivity.
  - assert (Hs' : check_dim mem name idx s
                  = (resolve_base s, Raise (RunError OUT_OF_MEMORY))).
    { rewrite check_dim_undeclared by exact Hget. cbv zeta.
      rewrite dim_spec. fold n. rewrite Hc, Hchk. cbv zeta.
      rewrite axes_product_repeat. fold request. rewrite Hfree.
      reflexivity. }
    subst s'. rewrite Hs'. cbn [fst]. split; [reflexivity|].
    unfold resolve_base. destruct (_base s); fields; auto 6.
Qed.

(** ** Erasing *)

Lemma erase_undeclared (name : string) (s : Arrays) :
  Dict.get name (_dims s) = None ->
  erase name s = (s, Raise (RunError IFC)).
Proof.
  intro Hget. unfold erase, bind, gets, raise. now rewrite Hget.
Qed.

Lemma erase_spec (name : string) (s : Arrays) (b : Z) (d : list Z)
  (ptrs : Z * Z) :
  _base s = Some b ->
  Dict.get name (_dims s) = Some d ->
  Dict.get name (_array_memory s) = Some ptrs ->
  Dict.contains name (_buffers s) = true ->
  Dict.contains name (_cache s) = true ->
  erase name s = (erased b name d (fst ptrs) s, Ok tt).
Proof.
  destruct s as [ds bs cs ms cur bb]. fields.
  intros -> Hd Hm Hbuf Hc.
  unfold erase, bind, gets, modify, lift, raise, erased, freed_bytes. fields.
  rewrite Hd. fields. rewrite array_len_axes_product.
  unfold Dict.lookup, Dict.del. fields. rewrite Hm.
  unfold Dict.contains at 1. rewrite Hd. fields.
  rewrite Hbuf. fields. rewrite Hc.
  unfold Dict.contains. rewrite Hm. reflexivity.
Qed.

Lemma get_compact (p f : Z) (m : Dict.t (Z * Z)) (name : string) :
  Dict.get name (compact p f m) =
  match Dict.get name m with
  | Some (h, a) => if p <? h then Some (h - f, a - f) else Some (h, a)
  | None => None
  end.
Proof.
  induction m as [|[n [h a]] m IH]; simpl; [reflexivity|].
  destruct (p <? h) eqn:E; simpl;
    (destruct (String.eqb name n); [now rewrite ?E | exact IH]).
Qed.

(** ** The layout invariant *)

Lemma axes_product_pos (b : Z) (d : list Z) :
  Forall (fun x => b <= x) d -> 0 < axes_product b d.
Proof.
  induction 1 as [|x d Hx _ IH]; simpl; [lia|].
  apply Z.mul_pos_pos; lia.
Qed.

Lemma record_len_pos (name : string) (d : list Z) : 0 < record_len name d.
Proof. unfold record_len. lia. Qed.

Lemma layout_keys (b start stop : Z) ds bs ms :
  layout b start ds bs ms stop ->
  Dict.keys bs = Dict.keys ds /\ Dict.keys ms = Dict.keys ds.
Proof.
  induction 1 as [|? ? ? ? ? ? ? ? ? ? ? [IH1 IH2]]; simpl; [now split|].
  now rewrite IH1, IH2.
Qed.

Lemma layout_le (b start stop : Z) ds bs ms :
  layout b start ds bs ms stop -> start <= stop.
Proof.
  induction 1 as [|start name d buf ds bs ms stop _ _ _ IH]; [lia|].
  pose proof (record_len_pos name d). lia.
Qed.

(** The three entries of a name are those of one record of the layout. *)
Lemma layout_descriptor (b start stop : Z) ds bs ms name d h a buf :
  layout b start ds bs ms stop ->
  Dict.get name ds = Some d ->
  Dict.get name ms = Some (h, a) ->
  Dict.get name bs = Some buf ->
  start <= h /\ a = h + record_len name d
  /\ a + Z.of_nat (List.length buf) <= stop
  /\ Forall (fun x => b <= x) d
  /\ Z.of_nat (List.length buf) = axes_product b d * size_bytes name.
Proof.
  induction 1 as [|start n d0 buf0 ds bs ms stop Hd Hlen Hl IH]; simpl;
    [discriminate|].
  destruct (String.eqb_spec name n) as [->|Hne].
  - intros [= <-] [= <- <-] [= <-]. apply layout_le in Hl.
    repeat split; (assumption || lia).
  - intros H1 H2 H3. destruct (IH H1 H2 H3) as (Hh & Ha & Hs & Hf & Hb).
    pose proof (record_len_pos n d0). repeat split; (assumption || lia).
Qed.

Lemma layout_get_dims (b start stop : Z) ds bs ms name d :
  layout b start ds bs ms stop ->
  Dict.get name ds = Some d ->
  exists h buf,
    Dict.get name ms = Some (h, h + record_len name d)
    /\ Dict.get name bs = Some buf.
Proof.
  induction 1 as [|start n d0 buf0 ds bs ms stop Hd Hlen Hl IH]; simpl;
    [discriminate|].
  destruct (String.eqb_spec name n) as [->|Hne].
  - intros [= <-]. now exists start, buf0.
  - exact IH.
Qed.

Lemma layout_get_memory (b start stop : Z) ds bs ms name h a :
  layout b start ds bs ms stop ->
  Dict.get name ms = Some (h, a) ->
  exists d buf, Dict.get name ds = Some d /\ Dict.get name bs = Some buf.
Proof.
  induction 1 as [|start n d0 buf0 ds bs ms stop Hd Hlen Hl IH]; simpl;
    [discriminate|].
  destruct (String.eqb_spec name n) as [->|Hne].
  - intros _. now exists d0, buf0.
  - exact IH.
Qed.

(** A new record goes to the end of the arena. *)
Lemma layout_snoc (b start stop : Z) ds bs ms name d buf :
  layout b start ds bs ms stop ->
  Forall (fun x => b <= x) d ->
  Z.of_nat (List.length buf) = axes_product b d * size_bytes name ->
  layout b start (ds ++ [(name, d)]) (bs ++ [(name, buf)])
    (ms ++ [(name, (stop, stop + record_len name d))])
    (stop + record_len name d + Z.of_nat (List.length buf)).
Proof.
  intros Hl Hd Hlen.
  induction Hl as [start|start n d0 buf0 ds bs ms stop Hd0 Hlen0 Hl IH];
    simpl.
  - constructor; [assumption..|constructor].
  - constructor; assumption.
Qed.

(** Records above the erased one move down by the freed bytes. *)
Lemma layout_shift (b start stop p f : Z) ds bs ms :
  layout b start ds bs ms stop ->
  p < start ->
  layout b (start - f) ds bs (compact p f ms) (stop - f).
Proof.
  induction 1 as [start|start n d0 buf0 ds bs ms stop Hd0 Hlen0 Hl IH];
    intro Hp; simpl.
  - constructor.
  - destruct (Z.ltb_spec p start) as [_|Hge]; [|lia].
    replace (start + record_len n d0 - f) with (start - f + record_len n d0)
      by lia.
    constructor; [assumption..|].
    replace (start - f + record_len n d0 + Z.of_nat (List.length buf0))
      with (start + record_len n d0 + Z.of_nat (List.length buf0) - f) by lia.
    apply IH. pose proof (record_len_pos n d0). lia.
Qed.

(** Erasing a record closes the hole it leaves. *)
Lemma layout_erase (b start stop : Z) ds bs ms name d h a buf :
  layout b start ds bs ms stop ->
  Dict.get name ds = Some d ->
  Dict.get name ms = Some (h, a) ->
  Dict.get name bs = Some buf ->
  layout b start (Dict.remove name ds) (Dict.remove name bs)
    (compact h (freed_bytes b name d) (Dict.remove name ms))
    (stop - freed_bytes b name d).
Proof.
  induction 1 as [start|start n d0 buf0 ds bs ms stop Hd0 Hlen0 Hl IH];
    simpl; [discriminate|].
  destruct (String.eqb_spec name n) as [->|Hne].
  - intros [= <-] [= <- <-] [= <-].
    pose proof (record_len_pos n d0) as Hr.
    pose proof (layout_shift b _ _ start (freed_bytes b n d0) _ _ _ Hl) as Hs.
    unfold freed_bytes in *.
    replace (start + record_len n d0 + Z.of_nat (List.length buf0)
             - (axes_product b d0 * size_bytes n + record_len n d0))
      with start in Hs by lia.
    apply Hs. lia.
  - intros H1 H2 H3.
    destruct (layout_descriptor _ _ _ _ _ _ _ _ _ _ _ Hl H1 H2 H3)
      as (Hh & _).
    pose proof (record_len_pos n d0) as Hr.
    simpl. destruct (Z.ltb_spec h start) as [Hlt|_]; [lia|].
    constructor; [assumption..|]. now apply IH.
Qed.

Lemma layout_disjoint (b start stop : Z) ds bs ms
  n1 d1 h1 a1 b1 n2 d2 h2 a2 b2 :
  layout b start ds bs ms stop ->
  n1 <> n2 ->
  Dict.get n1 ds = Some d1 -> Dict.get n1 ms = Some (h1, a1) ->
  Dict.get n1 bs = Some b1 ->
  Dict.get n2 ds = Some d2 -> Dict.get n2 ms = Some (h2, a2) ->
  Dict.get n2 bs = Some b2 ->
  a1 + Z.of_nat (List.length b1) <= h2 \/ a2 + Z.of_nat (List.length b2) <= h1.
Proof.
  induction 1 as [start|start n d0 buf0 ds bs ms stop Hd0 Hlen0 Hl IH];
    simpl; [discriminate|].
  intro Hne.
  destruct (String.eqb_spec n1 n) as [->|Hne1];
    destruct (String.eqb_spec n2 n) as [->|Hne2]; [congruence| | |].
  - intros [= <-] [= <- <-] [= <-] H1 H2 H3.
    destruct (layout_descriptor _ _ _ _ _ _ _ _ _ _ _ Hl H1 H2 H3) as (Hh & _).
    left. lia.
  - intros H1 H2 H3 [= <-] [= <- <-] [= <-].
    destruct (layout_descriptor _ _ _ _ _ _ _ _ _ _ _ Hl H1 H2 H3) as (Hh & _).
    right. lia.
  - now apply IH.
Qed.

Lemma layout_cover (b start stop : Z) ds bs ms (x : Z) :
  layout b start ds bs ms stop ->
  NoDup (Dict.keys ds) ->
  start <= x < stop ->
  exists name d h a buf,
    Dict.get name ds = Some d /\ Dict.get name ms = Some (h, a)
    /\ Dict.get name bs = Some buf
    /\ h <= x < a + Z.of_nat (List.length buf).
Proof.
  induction 1 as [start|start n d0 buf0 ds bs ms stop Hd0 Hlen0 Hl IH];
    intros Hnd Hx; [lia|].
  simpl in Hnd. inversion Hnd as [|? ? Hnin Hnd']; subst.
  destruct (Z.lt_ge_cases x
              (start + record_len n d0 + Z.of_nat (List.length buf0)))
    as [Hin|Hout].
  - exists n, d0, start, (start + record_len n d0), buf0. simpl.
    rewrite String.eqb_refl. repeat split; lia.
  - destruct (IH Hnd' (conj Hout (proj2 Hx)))
      as (name & d & h & a & buf & H1 & H2 & H3 & H4).
    exists name, d, h, a, buf. simpl.
    destruct (String.eqb_spec name n) as [->|_].
    + exfalso. apply Hnin. eapply get_In_keys; eauto.
    + repeat split; (assumption || lia).
Qed.

(** ** Well-formed states *)

Lemma wf_layout (s : Arrays) :
  wf s ->
  (resolved_base s = 0 \/ resolved_base s = 1)
  /\ layout (resolved_base s) 0 (_dims s) (_buffers s) (_array_memory s)
       (current s).
Proof.
  intros (_ & _ & H). unfold resolved_base.
  destruct (_base s) as [b|]; [exact H|].
  destruct H as (-> & -> & -> & ->). split; [now left|constructor].
Qed.

Lemma wf_init : wf init.
Proof.
  split; [constructor|]. split; [intros name []|]. simpl. repeat split.
Qed.

Lemma wf_resolve_base (s : Arrays) : wf s -> wf (resolve_base s).
Proof.
  intros Hwf. pose proof (wf_layout s Hwf) as [Hb Hl].
  destruct Hwf as (Hnd & Hc & H).
  unfold resolve_base, resolved_base in *. destruct (_base s) eqn:E.
  - split; [exact Hnd|]. split; [exact Hc|]. now rewrite E.
  - split; [exact Hnd|]. split; [exact Hc|]. fields. now split.
Qed.

Lemma dim_check_ok (b : Z) (d : list Z) :
  dim_check (Some b) d = Ok tt -> Forall (fun x => b <= x) d.
Proof.
  induction d as [|x d IH]; simpl; [constructor|].
  destruct (x <? 0); [discriminate|].
  destruct (Z.ltb_spec x b) as [|Hge]; [discriminate|].
  intro Hrest. constructor; [exact Hge|now apply IH].
Qed.

Lemma NoDup_keys_set {V} (k : string) (v : V) (d : Dict.t V) :
  NoDup (Dict.keys d) -> NoDup (Dict.keys (Dict.set k v d)).
Proof.
  induction d as [|[k0 v0] d IH]; simpl.
  - intros _. constructor; [intros []|constructor].
  - intro H. inversion H as [|? ? Hnin Hnd]; subst.
    destruct (String.eqb_spec k k0) as [->|Hne]; simpl.
    + now constructor.
    + constructor; [|now apply IH].
      rewrite keys_set. intros [E|Hin]; [congruence|contradiction].
Qed.

Lemma wf_declared (name : string) (d : list Z) (s : Arrays) :
  wf s ->
  Dict.contains name (_dims s) = false ->
  dim_check (Some (resolved_base s)) d = Ok tt ->
  wf (declared name d (axes_product (resolved_base s) d) s).
Proof.
  intros Hwf Hnew Hchk. pose proof (wf_layout s Hwf) as [Hb Hl].
  destruct Hwf as (Hnd & Hc & _).
  assert (Hget : Dict.get name (_dims s) = None).
  { unfold Dict.contains in Hnew.
    destruct (Dict.get name (_dims s)); [discriminate|reflexivity]. }
  pose proof (layout_keys _ _ _ _ _ _ Hl) as [Hkb Hkm].
  assert (Hgetb : Dict.get name (_buffers s) = None).
  { apply get_None_keys. rewrite Hkb. now apply get_None_keys. }
  assert (Hgetm : Dict.get name (_array_memory s) = None).
  { apply get_None_keys. rewrite Hkm. now apply get_None_keys. }
  pose proof (dim_check_ok _ _ Hchk) as Hd.
  pose proof (axes_product_pos _ _ Hd) as Hpos.
  pose proof (size_bytes_pos name) as Hsz.
  unfold declared. split; [|split]; fields.
  - now apply NoDup_keys_set.
  - intros n Hn. apply keys_set. apply keys_set in Hn as [->|Hn];
      [now left|right; now apply Hc].
  - split; [exact Hb|].
    rewrite (set_fresh _ _ _ Hget), (set_fresh _ _ _ Hgetb),
      (set_fresh _ _ _ Hgetm).
    set (buf := repeat x00 _).
    assert (Hlen : Z.of_nat (List.length buf)
                   = axes_product (resolved_base s) d * size_bytes name).
    { subst buf. rewrite repeat_length, Z2Nat.id; [reflexivity|].
      apply Z.lt_le_incl, Z.mul_pos_pos; assumption. }
    replace (current s
             + (record_len name d
                + axes_product (resolved_base s) d * size_bytes name))
      with (current s + record_len name d + Z.of_nat (List.length buf))
      by lia.
    now apply layout_snoc.
Qed.

Lemma wf_dim (mem : Memory) (name : string) (d : list Z) (s : Arrays) :
  wf s -> wf (fst (dim mem name d s)).
Proof.
  intro Hwf. rewrite dim_spec.
  destruct (Dict.contains name (_dims s)) eqn:Hnew;
    [now apply wf_resolve_base|].
  destruct (dim_check _ d) as [[]|e] eqn:Hchk; [|now apply wf_resolve_base].
  cbv zeta. destruct (check_free mem _); [|now apply wf_resolve_base].
  now apply wf_declared.
Qed.

Lemma wf_erased (name : string) (s : Arrays) (b : Z) (d : list Z) (h a : Z) :
  wf s ->
  _base s = Some b ->
  Dict.get name (_dims s) = Some d ->
  Dict.get name (_array_memory s) = Some (h, a) ->
  wf (erased b name d h s).
Proof.
  intros Hwf Hb Hd Hm. pose proof (wf_layout s Hwf) as [Hb01 Hl].
  destruct Hwf as (Hnd & Hc & _).
  unfold resolved_base in *. rewrite Hb in *.
  destruct (layout_get_memory _ _ _ _ _ _ _ _ _ Hl Hm)
    as (d' & buf & Hd' & Hbuf).
  unfold erased. split; [|split]; fields.
  - now apply NoDup_keys_remove.
  - intros n Hn.
    assert (Hne : name <> n).
    { intros ->. now apply (keys_remove_NoDup n (_dims s)). }
    apply keys_remove_neq; [exact Hne|]. apply Hc.
    eapply keys_remove; eauto.
  - rewrite Hb. split; [exact Hb01|].
    eapply layout_erase; eauto.
Qed.

Lemma wf_erase (name : string) (s : Arrays) :
  wf s -> wf (fst (erase name s)).
Proof.
  intro Hwf. destruct (Dict.get name (_dims s)) as [d|] eqn:Hd.
  - pose proof (wf_layout s Hwf) as [Hb01 Hl].
    destruct (_base s) as [b|] eqn:Hb.
    + destruct (layout_get_dims _ _ _ _ _ _ _ _ Hl Hd) as (h & buf & Hm & Hbuf).
      rewrite (erase_spec name s b d _ Hb Hd Hm).
      * now apply (wf_erased name s b d h (h + record_len name d)).
      * unfold Dict.contains. now rewrite Hbuf.
      * apply contains_In_keys. destruct Hwf as (_ & Hc & _). apply Hc.
        eapply get_In_keys; eauto.
    + destruct Hwf as (_ & _ & H). rewrite Hb in H.
      destruct H as (E & _). rewrite E in Hd. discriminate.
  - rewrite erase_undeclared by exact Hd. exact Hwf.
Qed.

Lemma wf_clear (s : Arrays) : wf s -> wf (fst (clear s)).
Proof.
  intros (_ & _ & H). rewrite clear_spec. split; [constructor|].
  split; [intros name []|]. fields.
  destruct (_base s) as [b|]; [|now repeat split].
  split; [apply H|constructor].
Qed.

Lemma wf_base (b : Z) (s : Arrays) : wf s -> wf (fst (base b s)).
Proof.
  intros Hwf. unfold base, bind, gets, modify, raise.
  destruct (negb _) eqn:Hb01; [exact Hwf|].
  destruct (_base s) as [b'|] eqn:Hb.
  - destruct (Z.eqb_spec b b') as [->|Hne]; simpl; [|exact Hwf].
    destruct Hwf as (Hnd & Hc & H). split; [exact Hnd|]. split; [exact Hc|].
    fields. now rewrite Hb in H.
  - simpl. destruct Hwf as (Hnd & Hc & H). split; [exact Hnd|].
    split; [exact Hc|]. fields. rewrite Hb in H.
    destruct H as (-> & -> & -> & ->). split; [|constructor].
    apply negb_false_iff, orb_true_iff in Hb01. rewrite !Z.eqb_eq in Hb01.
    tauto.
Qed.

Lemma wf_check_dim (mem : Memory) (name : string) (idx : list Z)
  (s : Arrays) :
  wf s -> wf (fst (check_dim mem name idx s)).
Proof.
  intro Hwf. destruct (Dict.get name (_dims s)) as [d|] eqn:Hd.
  - now rewrite (check_dim_declared mem name idx d s Hd).
  - rewrite (check_dim_undeclared mem name idx s Hd). cbv zeta.
    pose proof (wf_dim mem name (repeat 10 (List.length idx)) s Hwf) as H.
    destruct (dim mem name _ s) as [s' [[]|e]]; exact H.
Qed.

Lemma slice_bound_range (len x : Z) :
  0 <= len -> 0 <= slice_bound len x <= len.
Proof. intro H. unfold slice_bound. destruct (Z.ltb_spec x 0); lia. Qed.

(** [view_buffer] changes the state as [check_dim] does, and the view it
    returns is a window of the buffer of [name]. *)
Lemma view_buffer_state (mem : Memory) (name : string) (idx : list Z)
  (s : Arrays) :
  fst (view_buffer mem name idx s) = fst (check_dim mem name idx s)
  /\ forall v, snd (view_buffer mem name idx s) = Ok v ->
       exists buf,
         Dict.get name (_buffers (fst (check_dim mem name idx s))) = Some buf
         /\ view_of v = name
         /\ 0 <= view_start v <= view_stop v
         /\ view_stop v <= Z.of_nat (List.length buf).
Proof.
  unfold view_buffer, bind, gets, lift, ret.
  assert (Hname : forall r, snd (check_dim mem name idx s) = Ok r ->
                  snd r = name).
  { destruct (Dict.get name (_dims s)) as [d|] eqn:Hd.
    - rewrite (check_dim_declared mem name idx d s Hd). unfold checked.
      cbn [snd]. intros r H.
      destruct (Dict.lookup name (_buffers s)); [|discriminate].
      cbn [and_then] in H. destruct (negb _); [discriminate|].
      destruct (check_index _ idx d); [|discriminate].
      cbn [and_then] in H. now injection H as <-.
    - rewrite (check_dim_undeclared mem name idx s Hd). cbv zeta.
      destruct (dim mem name _ s) as [s' [[]|e]]; [|discriminate].
      unfold checked. cbn [snd]. intros r H.
      destruct (Dict.lookup name (_buffers s')); [|discriminate].
      cbn [and_then] in H. destruct (negb _); [discriminate|].
      destruct (check_index _ idx _); [|discriminate].
      cbn [and_then] in H. now injection H as <-. }
  destruct (check_dim mem name idx s) as [s1 [r|e]];
    [|split; [reflexivity|cbn [snd]; discriminate]].
  specialize (Hname r eq_refl). cbn [fst snd] in *. rewrite Hname.
  destruct (index (_base s1) idx (fst r)) as [k|e];
    [|split; [reflexivity|cbn [snd]; discriminate]].
  unfold Dict.lookup.
  destruct (Dict.get name (_buffers s1)) as [buf|];
    [|split; [reflexivity|cbn [snd]; discriminate]].
  split; [reflexivity|]. cbn [snd]. intros v [= <-].
  exists buf. cbn [view_of view_start view_stop].
  pose proof (slice_bound_range (Z.of_nat (List.length buf))
                (k * size_bytes name) (Nat2Z.is_nonneg _)).
  pose proof (slice_bound_range (Z.of_nat (List.length buf))
                ((k + 1) * size_bytes name) (Nat2Z.is_nonneg _)).
  repeat split; lia.
Qed.

Lemma wf_view_buffer (mem : Memory) (name : string) (idx : list Z)
  (s : Arrays) :
  wf s -> wf (fst (view_buffer mem name idx s)).
Proof.
  intro Hwf. rewrite (proj1 (view_buffer_state mem name idx s)).
  now apply wf_check_dim.
Qed.

(** Overwriting a buffer by one of the same length keeps the layout. *)
Lemma layout_set_buffer (b start stop : Z) ds bs ms name buf buf' :
  layout b start ds bs ms stop ->
  Dict.get name bs = Some buf ->
  List.length buf' = List.length buf ->
  layout b start ds (Dict.set name buf' bs) ms stop.
Proof.
  intros Hl Hget Hlen. revert Hget.
  induction Hl as [start|start n d0 buf0 ds bs ms stop Hd0 Hlen0 Hl IH];
    simpl; [discriminate|].
  destruct (String.eqb_spec name n) as [->|Hne].
  - intros [= <-]. rewrite <- Hlen in Hlen0, Hl.
    now constructor.
  - intro Hget. constructor; [assumption..|]. now apply IH.
Qed.

Lemma wf_with_cache (s : Arrays) (name : string) (item : option Sprite) :
  wf s -> wf (with_cache (Dict.set name item (_cache s)) s).
Proof.
  intros (Hnd & Hc & H). split; [exact Hnd|]. split; [|exact H]. fields.
  intros n Hn. apply keys_set. right. now apply Hc.
Qed.

Lemma wf_with_buffer (s : Arrays) (name : string) (buf buf' : list byte) :
  wf s ->
  Dict.get name (_buffers s) = Some buf ->
  List.length buf' = List.length buf ->
  wf (with_buffers (Dict.set name buf' (_buffers s)) s).
Proof.
  intros (Hnd & Hc & H) Hget Hlen. split; [exact Hnd|]. split; [exact Hc|].
  fields. destruct (_base s) as [b|].
  - destruct H as [Hb Hl]. split; [exact Hb|].
    eapply layout_set_buffer; eauto.
  - destruct H as (_ & E & _). rewrite E in Hget. discriminate.
Qed.

Lemma wf_set (mem : Memory) (name : string) (idx : list Z) (v : Value)
  (s : Arrays) :
  wf s -> wf (fst (set mem name idx v s)).
Proof.
  intro Hwf. unfold set.
  destruct (last_char name) as [sigil|]; [|exact Hwf].
  unfold bind at 1, lift.
  destruct (to_bytes sigil v) as [bs|e]; [|exact Hwf].
  unfold bind at 1.
  pose proof (wf_view_buffer mem name idx s Hwf) as Hwf1.
  pose proof (view_buffer_state mem name idx s) as [Hst Hv].
  rewrite <- Hst in Hv.
  destruct (view_buffer mem name idx s) as [s1 [view|e]]; [|exact Hwf1].
  cbn [fst snd] in *.
  destruct (Hv view eq_refl) as (buf & Hbuf & Hof & Hlo & Hhi).
  unfold bind at 1, view_assign.
  destruct (negb _) eqn:Hfit; [exact Hwf1|].
  apply negb_false_iff, Z.eqb_eq in Hfit.
  unfold bind, gets, lift, modify, Dict.lookup. rewrite Hof, Hbuf.
  cbn [fst]. apply wf_with_cache.
  apply (wf_with_buffer s1 name buf); [exact Hwf1|exact Hbuf|].
  rewrite !length_app, length_firstn, length_skipn. lia.
Qed.

Lemma wf_step (op : operation) (s : Arrays) : wf s -> wf (fst (step op s)).
Proof.
  destruct op; cbn [step];
    [apply wf_dim|apply wf_erase|apply wf_clear|apply wf_base| |apply wf_set|].
  - intro Hwf. unfold bind, get, ret.
    pose proof (wf_view_buffer mem name idx s Hwf) as H.
    destruct (view_buffer mem name idx s) as [s' [v|e]]; exact H.
  - intro Hwf. unfold set_cache, modify. cbn [fst].
    now apply wf_with_cache.
Qed.

Lemma wf_run (ops : list operation) :
  forall s, wf s -> wf (run ops s).
Proof.
  induction ops as [|op ops IH]; intros s Hwf; simpl; [exact Hwf|].
  apply IH. now apply wf_step.
Qed.

Lemma wf_tiling (s : Arrays) : wf s -> tiling s.
Proof.
  intro Hwf. pose proof (wf_layout s Hwf) as [_ Hl].
  destruct Hwf as (Hnd & _ & _). unfold tiling, descriptor.
  split; [|split; [|split; [|split]]].
  - intros name Hin. unfold Dict.contains in Hin.
    destruct (Dict.get name (_dims s)) as [d|] eqn:Hd; [|discriminate].
    destruct (layout_get_dims _ _ _ _ _ _ _ _ Hl Hd) as (h & buf & Hm & Hb).
    now exists d, h, (h + record_len name d), buf.
  - intros name d h a buf (H1 & H2 & H3).
    destruct (layout_descriptor _ _ _ _ _ _ _ _ _ _ _ Hl H1 H2 H3)
      as (_ & -> & _).
    unfold record_len. lia.
  - intros n1 d1 h1 a1 b1 n2 d2 h2 a2 b2 Hne (H1 & H2 & H3) (H4 & H5 & H6).
    eapply (layout_disjoint _ _ _ _ _ _ n1 d1 h1 a1 b1 n2 d2 h2 a2 b2);
      eauto.
  - intros name d h a buf (H1 & H2 & H3).
    destruct (layout_descriptor _ _ _ _ _ _ _ _ _ _ _ Hl H1 H2 H3)
      as (Hh & -> & Hs & _).
    pose proof (record_len_pos name d). lia.
  - intros x Hx.
    destruct (layout_cover _ _ _ _ _ _ x Hl Hnd Hx)
      as (name & d & h & a & buf & H1 & H2 & H3 & H4).
    now exists name, d, h, a, buf.
Qed.

(** C3: after any sequence of [dim], [erase] and [clear] calls on a fresh
    object (and of [base], [get], [set] and [set_cache] calls among them),
    whether they succeed or raise, every descriptor has its
    data at [header + 1 + max(3, len(name)) + 3 + 2 * len(dimensions)], the
    header-and-data spans of different descriptors do not overlap, and the
    spans cover the arena from 0 up to [current] without a gap. *)
Theorem arena_tiling (ops : list operation) : tiling (run ops init).
Proof. apply wf_tiling, wf_run, wf_init. Qed.

(** C4: in a well-formed state with arrays A and B, B's header above A's,
    [erase A] succeeds and leaves B's header and data addresses and
    [current] each lower by [record_len A + array_len A * size_bytes A];
    B's buffer, dimensions and cache entry are what they were, and every
    other array whose header was not above A's keeps both addresses. *)
Theorem erase_compaction (s : Arrays) (A B : string) (dA dB : list Z)
  (hA aA hB aB : Z) (bufA bufB : list byte) :
  wf s ->
  descriptor s A dA hA aA bufA ->
  descriptor s B dB hB aB bufB ->
  hA < hB ->
  exists len s',
    array_len (_base s) dA = Ok len
    /\ erase A s = (s', Ok tt)
    /\ descriptor s' B dB
         (hB - (record_len A dA + len * size_bytes A))
         (aB - (record_len A dA + len * size_bytes A)) bufB
    /\ current s' = current s - (record_len A dA + len * size_bytes A)
    /\ Dict.get B (_cache s') = Dict.get B (_cache s)
    /\ (forall name h a,
          name <> A ->
          Dict.get name (_array_memory s) = Some (h, a) ->
          h <= hA ->
          Dict.get name (_array_memory s') = Some (h, a)).
Proof.
  intros Hwf (HdA & HmA & HbA) (HdB & HmB & HbB) Hlt.
  assert (Hne : A <> B) by (intros ->; rewrite HmA in HmB; injection HmB; lia).
  destruct (_base s) as [b|] eqn:Hb.
  2:{ destruct Hwf as (_ & _ & H). rewrite Hb in H. destruct H as (E & _).
      rewrite E in HdA. discriminate. }
  exists (axes_product b dA), (erased b A dA hA s).
  split; [apply array_len_axes_product|].
  split.
  { rewrite (erase_spec A s b dA (hA, aA) Hb HdA HmA); [reflexivity| |].
    - unfold Dict.contains. now rewrite HbA.
    - apply contains_In_keys. destruct Hwf as (_ & Hc & _). apply Hc.
      eapply get_In_keys; eauto. }
  unfold erased, descriptor, freed_bytes. fields.
  replace (record_len A dA + axes_product b dA * size_bytes A)
    with (axes_product b dA * size_bytes A + record_len A dA) by lia.
  rewrite !get_compact, !get_remove_neq by exact Hne. rewrite HmB.
  destruct (Z.ltb_spec hA hB) as [_|Hge]; [|lia].
  repeat split; try assumption.
  intros name h a Hname Hm Hle.
  rewrite get_compact, get_remove_neq by congruence. rewrite Hm.
  destruct (Z.ltb_spec hA h) as [Hgt|_]; [lia|reflexivity].
Qed.

(** ** Element access *)

Lemma index_loop_legal (b : Z) (idx d : list Z) :
  legal_index b idx d ->
  forall bigindex area,
  exists k,
    index_loop (Some b) idx d bigindex area = Ok (bigindex + area * k)
    /\ 0 <= k < axes_product b d.
Proof.
  induction 1 as [|i x idx d Hi _ IH]; intros bigindex area; simpl.
  - exists 0. split; [f_equal; lia|lia].
  - destruct (IH (bigindex + area * (i - b)) (area * (x + 1 - b)))
      as (k & -> & Hk).
    exists (i - b + (x + 1 - b) * k). split; [f_equal; lia|nia].
Qed.

Lemma index_legal (b : Z) (idx d : list Z) :
  legal_index b idx d ->
  exists k, index (Some b) idx d = Ok k /\ 0 <= k < axes_product b d.
Proof.
  intro H. destruct (index_loop_legal b idx d H 0 1) as (k & E & Hk).
  exists k. unfold index. rewrite E. split; [f_equal; lia|exact Hk].
Qed.

Lemma check_index_legal (b : Z) (idx d : list Z) :
  0 <= b -> legal_index b idx d -> check_index (Some b) idx d = Ok tt.
Proof.
  intro Hb. induction 1 as [|i x idx d Hi _ IH]; simpl; [reflexivity|].
  destruct (Z.ltb_spec i 0); [lia|].
  destruct (Z.ltb_spec i b); [lia|].
  destruct (Z.ltb_spec x i); [lia|]. exact IH.
Qed.

Lemma slice_bound_inside (len x : Z) :
  0 <= x <= len -> slice_bound len x = x.
Proof.
  intro H. unfold slice_bound. destruct (Z.ltb_spec x 0); lia.
Qed.

(** The view of a legal element of a declared array: the [size_bytes]
    bytes at the flat offset, and the state is untouched. *)
Lemma view_buffer_legal (mem : Memory) (name : string) (idx d : list Z)
  (s : Arrays) (b : Z) (buf : list byte) :
  _base s = Some b -> 0 <= b ->
  Dict.get name (_dims s) = Some d ->
  Dict.get name (_buffers s) = Some buf ->
  Z.of_nat (List.length buf) = axes_product b d * size_bytes name ->
  legal_index b idx d ->
  exists k,
    index (Some b) idx d = Ok k
    /\ 0 <= k < axes_product b d
    /\ view_buffer mem name idx s
       = (s, Ok (mkView name (k * size_bytes name)
                   ((k + 1) * size_bytes name))).
Proof.
  intros Hb Hb0 Hd Hbuf Hlen Hidx.
  destruct (index_legal b idx d Hidx) as (k & Hk & Hrange).
  exists k. split; [exact Hk|]. split; [exact Hrange|].
  pose proof (size_bytes_pos name) as Hsz.
  unfold view_buffer. unfold bind at 1.
  rewrite (check_dim_declared mem name idx d s Hd).
  unfold checked, Dict.lookup, and_then. rewrite Hbuf.
  rewrite (Forall2_length Hidx), Nat.eqb_refl. cbn [negb].
  rewrite Hb, (check_index_legal b idx d Hb0 Hidx).
  unfold bind, gets, lift, ret. cbn [fst snd]. rewrite Hb, Hk.
  unfold Dict.lookup. rewrite Hbuf.
  rewrite !slice_bound_inside by nia.
  rewrite Z.max_r by nia. reflexivity.
Qed.

Lemma splice_length {A} (l bs : list A) (lo : nat) :
  (lo + List.length bs <= List.length l)%nat ->
  List.length (firstn lo l ++ bs ++ skipn (lo + List.length bs) l)
  = List.length l.
Proof.
  intro H. rewrite !length_app, length_firstn, length_skipn. lia.
Qed.

Lemma splice_read {A} (l bs : list A) (lo : nat) :
  (lo <= List.length l)%nat ->
  firstn (List.length bs)
    (skipn lo (firstn lo l ++ bs ++ skipn (lo + List.length bs) l))
  = bs.
Proof.
  intro H.
  rewrite skipn_app, length_firstn, Nat.min_l by exact H.
  rewrite Nat.sub_diag. cbn [skipn].
  rewrite skipn_all2 by (rewrite length_firstn; lia).
  cbn [app]. rewrite firstn_app, Nat.sub_diag, firstn_all. cbn [firstn].
  now rewrite app_nil_r.
Qed.

(** C8: in a well-formed state, for a declared name, an index that is
    legal for its dimensions and a value whose encoding for the name's sigil
    is [bs], [set] succeeds and a following [get] of the same element
    returns a view whose bytes are [bs]. *)
Theorem set_get_round_trip (mem mem' : Memory) (name : string)
  (idx d : list Z) (v : Value) (sigil : ascii) (bs : list byte)
  (s : Arrays) :
  wf s ->
  Dict.get name (_dims s) = Some d ->
  legal_index (resolved_base s) idx d ->
  last_char name = Some sigil ->
  to_bytes sigil v = Ok bs ->
  exists s1 view,
    set mem name idx v s = (s1, Ok tt)
    /\ get mem' name idx s1 = (s1, Ok view)
    /\ view_bytes s1 view = bs.
Proof.
  intros Hwf Hd Hidx Hlast Henc.
  pose proof (wf_layout s Hwf) as [Hb01 Hl].
  destruct (layout_get_dims _ _ _ _ _ _ _ _ Hl Hd) as (h & buf & Hm & Hbuf).
  destruct (layout_descriptor _ _ _ _ _ _ _ _ _ _ _ Hl Hd Hm Hbuf)
    as (_ & _ & _ & _ & Hlen).
  assert (Hb : _base s = Some (resolved_base s)).
  { unfold resolved_base. destruct (_base s) eqn:E; [reflexivity|].
    destruct Hwf as (_ & _ & H). rewrite E in H. destruct H as (E' & _).
    rewrite E' in Hd. discriminate. }
  set (b := resolved_base s) in *.
  assert (Hb0 : 0 <= b) by lia.
  pose proof (size_bytes_pos name) as Hsz.
  pose proof (to_bytes_size name sigil v bs Hlast Henc) as Hbs.
  destruct (view_buffer_legal mem name idx d s b buf Hb Hb0 Hd Hbuf Hlen Hidx)
    as (k & Hk & Hrange & Hview).
  set (lo := k * size_bytes name) in *.
  set (hi := (k + 1) * size_bytes name) in *.
  set (buf' := firstn (Z.to_nat lo) buf ++ bs ++ skipn (Z.to_nat hi) buf).
  assert (Hhi : Z.to_nat hi = (Z.to_nat lo + List.length bs)%nat)
    by (subst lo hi; nia).
  assert (Hfit : (Z.to_nat lo + List.length bs <= List.length buf)%nat)
    by (subst lo hi; nia).
  assert (Hlen' : Z.of_nat (List.length buf')
                  = axes_product b d * size_bytes name).
  { subst buf'. rewrite Hhi, splice_length by exact Hfit. exact Hlen. }
  set (s1 := with_cache (Dict.set name None (_cache s))
               (with_buffers (Dict.set name buf' (_buffers s)) s)).
  assert (Hbuf1 : Dict.get name (_buffers s1) = Some buf')
    by (subst s1; fields; apply get_set_eq).
  exists s1, (mkView name lo hi). split; [|split].
  - unfold set. rewrite Hlast. unfold bind at 1, lift. rewrite Henc.
    unfold bind at 1. rewrite Hview.
    unfold view_assign. cbn [view_start view_stop view_of].
    replace (Z.of_nat (List.length bs) =? hi - lo) with true
      by (symmetry; apply Z.eqb_eq; subst lo hi; lia).
    cbn [negb]. unfold bind, gets, lift, modify, Dict.lookup.
    rewrite Hbuf. reflexivity.
  - destruct (view_buffer_legal mem' name idx d s1 b buf' Hb Hb0 Hd Hbuf1
                Hlen' Hidx) as (k' & Hk' & _ & Hview').
    rewrite Hk in Hk'. injection Hk' as <-. exact Hview'.
  - unfold view_bytes. cbn [view_of view_start view_stop]. rewrite Hbuf1.
    subst buf'. rewrite Hhi.
    replace (Z.to_nat (hi - lo)) with (List.length bs) by (subst lo hi; nia).
    apply splice_read. lia.
Qed.

(** ** Reading the arena when it starts at address 0

    [get_memory] looks for the owner of an address among the arena-relative
    header addresses. When [var_current()] is 0 these are the absolute
    addresses, and the owner it finds is the array whose span holds the
    address. *)

Lemma get_memory_loop_above (b start stop address : Z) ds bs ms :
  layout b start ds bs ms stop ->
  address < start ->
  forall name_addr arr_addr the_arr,
    get_memory_loop address ms name_addr arr_addr the_arr
    = (name_addr, arr_addr, the_arr).
Proof.
  induction 1 as [start|start n d0 buf0 ds bs ms stop Hd0 Hlen0 Hl IH];
    intros Ha name_addr arr_addr the_arr; simpl; [reflexivity|].
  destruct (Z.leb_spec start address) as [Hle|_]; [lia|]. cbn [andb].
  apply IH. pose proof (record_len_pos n d0). lia.
Qed.

Lemma get_memory_loop_owner (b start stop address : Z) ds bs ms
  name d h a buf :
  layout b start ds bs ms stop ->
  Dict.get name ds = Some d ->
  Dict.get name ms = Some (h, a) ->
  Dict.get name bs = Some buf ->
  h <= address < a + Z.of_nat (List.length buf) ->
  forall name_addr arr_addr the_arr,
    name_addr < start ->
    get_memory_loop address ms name_addr arr_addr the_arr
    = (h, a, Some name).
Proof.
  induction 1 as [start|start n d0 buf0 ds bs ms stop Hd0 Hlen0 Hl IH];
    simpl; [discriminate|].
  pose proof (record_len_pos n d0) as Hr.
  destruct (String.eqb_spec name n) as [->|Hne].
  - intros [= <-] [= <- <-] [= <-] Ha name_addr arr_addr the_arr Hlt.
    destruct (Z.leb_spec start address) as [_|Hgt]; [|lia].
    destruct (Z.ltb_spec name_addr start) as [_|Hge]; [|lia]. cbn [andb].
    apply (get_memory_loop_above _ _ _ _ _ _ _ Hl). lia.
  - intros H1 H2 H3 Ha name_addr arr_addr the_arr Hlt.
    destruct (layout_descriptor _ _ _ _ _ _ _ _ _ _ _ Hl H1 H2 H3)
      as (Hh & _).
    destruct (Z.leb_spec start address) as [_|Hgt]; [|lia].
    destruct (Z.ltb_spec name_addr start) as [_|Hge]; [|lia]. cbn [andb].
    apply IH; (assumption || lia).
Qed.

Lemma array_size_bytes_declared (s : Arrays) (name : string) (d : list Z)
  (b : Z) :
  _base s = Some b ->
  Dict.get name (_dims s) = Some d ->
  array_size_bytes name s = Ok (axes_product b d * size_bytes name).
Proof.
  intros Hb Hd. unfold array_size_bytes.
  now rewrite Hd, Hb, array_len_axes_product.
Qed.

Lemma wf_declared_base (s : Arrays) (name : string) (d : list Z) :
  wf s -> Dict.get name (_dims s) = Some d ->
  _base s = Some (resolved_base s).
Proof.
  intros (_ & _ & H) Hd. unfold resolved_base.
  destruct (_base s); [reflexivity|].
  destruct H as (E & _). rewrite E in Hd. discriminate.
Qed.

(** X21: in a well-formed state with the arena at address 0, [get_memory]
    of an address in the data of
    an array returns the byte of its buffer at the offset from the data
    address. *)
Lemma get_memory_data_arena_at_zero (mem : Memory) (s : Arrays)
  (name : string) (d : list Z) (h a : Z) (buf : list byte) (address : Z) :
  wf s ->
  var_current mem = 0 ->
  descriptor s name d h a buf ->
  a <= address < a + Z.of_nat (List.length buf) ->
  exists x,
    nth_error buf (Z.to_nat (address - a)) = Some x
    /\ get_memory mem address s = Ok (Z_of_byte x).
Proof.
  intros Hwf Hvc (Hd & Hm & Hbuf) Ha.
  pose proof (wf_layout s Hwf) as [_ Hl].
  pose proof (wf_declared_base s name d Hwf Hd) as Hb.
  destruct (layout_descriptor _ _ _ _ _ _ _ _ _ _ _ Hl Hd Hm Hbuf)
    as (Hh & Hrec & _ & _ & Hlen).
  pose proof (record_len_pos name d) as Hr.
  destruct (nth_error buf (Z.to_nat (address - a))) as [x|] eqn:Hx.
  2:{ apply nth_error_None in Hx. lia. }
  exists x. split; [reflexivity|].
  unfold get_memory.
  rewrite (get_memory_loop_owner _ _ _ address _ _ _ name d h a buf Hl Hd Hm
             Hbuf) by lia.
  rewrite Hvc. destruct (Z.leb_spec (0 + a) address) as [_|Hlt]; [|lia].
  rewrite (array_size_bytes_declared s name d _ Hb Hd). cbn [and_then].
  destruct (Z.leb_spec (axes_product (resolved_base s) d * size_bytes name)
              (address - a - 0)) as [Hge|_]; [lia|].
  unfold Dict.lookup. rewrite Hbuf. cbn [and_then]. unfold item.
  destruct (Z.ltb_spec (address - a - 0) 0) as [Hneg|_]; [lia|].
  destruct (Z.ltb_spec (address - a - 0) 0) as [Hneg|_]; [lia|].
  destruct (Z.leb_spec (Z.of_nat (List.length buf)) (address - a - 0))
    as [Hge|_]; [lia|].
  cbn [orb]. replace (address - a - 0) with (address - a) by lia.
  now rewrite Hx.
Qed.

(** With the arena at address 0, [get_memory] of an address in the header
    of an array past the bytes of the name returns the byte of the record
    [data_rep] at the offset past the name. *)
Lemma get_memory_header_arena_at_zero (mem : Memory) (s : Arrays)
  (name : string) (d : list Z) (h a : Z) (buf : list byte) (address : Z) :
  wf s ->
  var_current mem = 0 ->
  descriptor s name d h a buf ->
  h + (Z.max 3 (Z.of_nat (String.length name)) + 1) <= address < a ->
  get_memory mem address s =
  try rep := data_rep name s in
  try x := item rep
             (address - h - (Z.max 3 (Z.of_nat (String.length name)) + 1)) in
  Ok (Z_of_byte x).
Proof.
  intros Hwf Hvc (Hd & Hm & Hbuf) Ha.
  pose proof (wf_layout s Hwf) as [_ Hl].
  destruct (layout_descriptor _ _ _ _ _ _ _ _ _ _ _ Hl Hd Hm Hbuf)
    as (Hh & Hrec & _).
  unfold get_memory.
  rewrite (get_memory_loop_owner _ _ _ address _ _ _ name d h a buf Hl Hd Hm
             Hbuf) by lia.
  rewrite Hvc. destruct (Z.leb_spec (0 + a) address) as [Hle|_]; [lia|].
  destruct (Z.ltb_spec (address - h - 0)
              (Z.max 3 (Z.of_nat (String.length name)) + 1)) as [Hlt|_];
    [lia|].
  now replace (address - h - 0) with (address - h) by lia.
Qed.

(** The record is the total-size word, the dimension count and one word per
    dimension, all little-endian, when the numbers fit their fields. *)
Lemma pack_dimensions_fit (b : Z) (d : list Z) :
  Forall (fun x => 0 <= x + 1 - b <= 65535) d ->
  forall rep,
    pack_dimensions (Some b) d rep =
    Ok (rep ++ List.concat (map (fun x => [byte_of_Z (x + 1 - b);
                                      byte_of_Z ((x + 1 - b) / 256)]) d)).
Proof.
  induction 1 as [|x d Hx _ IH]; intro rep; simpl.
  - now rewrite app_nil_r.
  - unfold pack_H.
    destruct (Z.ltb_spec (x + 1 - b) 0) as [Hneg|_]; [lia|].
    destruct (Z.ltb_spec 65535 (x + 1 - b)) as [Hbig|_]; [lia|].
    cbn [orb and_then]. rewrite IH, <- app_assoc. reflexivity.
Qed.

Lemma data_rep_fit (s : Arrays) (name : string) (d : list Z) (b : Z) :
  _base s = Some b ->
  Dict.get name (_dims s) = Some d ->
  Forall (fun x => 0 <= x + 1 - b <= 65535) d ->
  let n := Z.of_nat (List.length d) in
  let total := axes_product b d * size_bytes name + 1 + 2 * n in
  0 <= total <= 65535 ->
  n <= 255 ->
  data_rep name s =
  Ok ([byte_of_Z total; byte_of_Z (total / 256); byte_of_Z n]
      ++ List.concat (map (fun x => [byte_of_Z (x + 1 - b);
                                byte_of_Z ((x + 1 - b) / 256)]) d)).
Proof.
  intros Hb Hd Hfit n total Htotal Hn. unfold data_rep, Dict.lookup.
  rewrite Hd. cbn [and_then].
  rewrite (array_size_bytes_declared s name d b Hb Hd). cbn [and_then].
  fold n. fold total. unfold pack_H, pack_B.
  destruct (Z.ltb_spec total 0) as [Hneg|_]; [lia|].
  destruct (Z.ltb_spec 65535 total) as [Hbig|_]; [lia|].
  destruct (Z.ltb_spec n 0) as [Hneg|_]; [subst n; lia|].
  destruct (Z.ltb_spec 255 n) as [Hbig|_]; [lia|].
  cbn [orb and_then]. rewrite Hb. now rewrite pack_dimensions_fit.
Qed.

(** ** What the calls keep *)

Ltac case_matches :=
  repeat match goal with
         | |- context [match ?x with _ => _ end] => destruct x
         end.

Lemma erase_keeps (name : string) (s : Arrays) :
  _base (fst (erase name s)) = _base s
  /\ (_dims (fst (erase name s)) = _dims s
      \/ _dims (fst (erase name s)) = Dict.remove name (_dims s)).
Proof.
  unfold erase, bind, gets, modify, lift, raise, Dict.lookup, Dict.del.
  destruct s as [ds bs cs ms cur bb]. fields.
  repeat match goal with
         | |- context [Dict.contains ?k ?d] => destruct (Dict.contains k d)
         end.
  all: case_matches; fields; cbn [fst]; fields; auto.
Qed.

Lemma dim_keeps (mem : Memory) (n : string) (dd : list Z) (s : Arrays) :
  _base (fst (dim mem n dd s)) = Some (resolved_base s)
  /\ forall name d,
       Dict.get name (_dims s) = Some d ->
       Dict.get name (_dims (fst (dim mem n dd s))) = Some d.
Proof.
  rewrite dim_spec.
  assert (Hres : _base (resolve_base s) = Some (resolved_base s)
                 /\ _dims (resolve_base s) = _dims s).
  { unfold resolve_base, resolved_base. destruct (_base s) eqn:E; auto. }
  destruct Hres as [Hb Hd].
  destruct (Dict.contains n (_dims s)) eqn:Hin;
    [cbn [fst]; rewrite Hb, Hd; auto|].
  destruct (dim_check _ dd);
    [|cbn [fst]; rewrite Hb, Hd; auto].
  cbv zeta. destruct (check_free mem _);
    [|cbn [fst]; rewrite Hb, Hd; auto].
  cbn [fst]. unfold declared. fields. split; [reflexivity|].
  intros name d Hget. rewrite get_set_neq; [exact Hget|].
  intros ->. unfold Dict.contains in Hin. now rewrite Hget in Hin.
Qed.

Lemma check_dim_keeps (mem : Memory) (n : string) (idx : list Z)
  (s : Arrays) :
  (forall b, _base s = Some b ->
             _base (fst (check_dim mem n idx s)) = Some b)
  /\ forall name d,
       Dict.get name (_dims s) = Some d ->
       Dict.get name (_dims (fst (check_dim mem n idx s))) = Some d.
Proof.
  destruct (Dict.get n (_dims s)) as [d0|] eqn:Hn.
  - rewrite (check_dim_declared mem n idx d0 s Hn). cbn [fst]. auto.
  - rewrite (check_dim_undeclared mem n idx s Hn). cbv zeta.
    pose proof (dim_keeps mem n (repeat 10 (List.length idx)) s) as [Hb Hd].
    destruct (dim mem n _ s) as [s' [[]|e]]; cbn [fst] in *;
      (split; [intros b E; rewrite Hb; unfold resolved_base; now rewrite E
              |exact Hd]).
Qed.

Lemma set_keeps (mem : Memory) (n : string) (idx : list Z) (v : Value)
  (s : Arrays) :
  _base (fst (set mem n idx v s)) = _base (fst (check_dim mem n idx s))
  /\ _dims (fst (set mem n idx v s)) = _dims (fst (check_dim mem n idx s))
  \/ fst (set mem n idx v s) = s.
Proof.
  unfold set. destruct (last_char n); [|now right].
  unfold view_assign, bind, lift, gets, modify, raise, Dict.lookup.
  destruct (to_bytes _ v); [|now right].
  left. rewrite <- (proj1 (view_buffer_state mem n idx s)).
  destruct (view_buffer mem n idx s) as [s1 [view|e]]; [|now split].
  destruct (negb _); [now split|]. cbv beta.
  destruct (Dict.get (view_of view) (_buffers s1)); now split.
Qed.

Lemma step_keeps_base (op : operation) (s : Arrays) (b : Z) :
  _base s = Some b -> _base (fst (step op s)) = Some b.
Proof.
  intro Hb. destruct op; cbn [step].
  - rewrite (proj1 (dim_keeps _ _ _ _)). unfold resolved_base. now rewrite Hb.
  - now rewrite (proj1 (erase_keeps _ _)).
  - exact Hb.
  - unfold base, bind, gets, modify, raise.
    destruct (negb _); [exact Hb|]. cbv beta iota. rewrite Hb.
    destruct (Z.eqb_spec b0 b) as [->|_]; cbn; [reflexivity|exact Hb].
  - unfold bind, get, ret.
    rewrite <- (proj1 (check_dim_keeps mem name idx s) b Hb).
    rewrite <- (proj1 (view_buffer_state mem name idx s)).
    destruct (view_buffer mem name idx s) as [s' [v|e]]; reflexivity.
  - destruct (set_keeps mem name idx value s) as [[E _]|E].
    + rewrite E. now apply check_dim_keeps.
    + now rewrite E.
  - exact Hb.
Qed.

Lemma step_keeps_dims (op : operation) (s : Arrays) (name : string)
  (d : list Z) :
  Dict.get name (_dims s) = Some d ->
  op <> OpErase name -> op <> OpClear ->
  Dict.get name (_dims (fst (step op s))) = Some d.
Proof.
  intros Hd Herase Hclear. destruct op; cbn [step].
  - now apply dim_keeps.
  - destruct (proj2 (erase_keeps name0 s)) as [-> | ->]; [exact Hd|].
    rewrite get_remove_neq; [exact Hd|]. intros ->. now apply Herase.
  - now contradiction Hclear.
  - unfold base, bind, gets, modify, raise. case_matches; exact Hd.
  - unfold bind, get, ret.
    rewrite <- (proj2 (check_dim_keeps mem name0 idx s) name d Hd).
    rewrite <- (proj1 (view_buffer_state mem name0 idx s)).
    destruct (view_buffer mem name0 idx s) as [s' [v|e]]; reflexivity.
  - destruct (set_keeps mem name0 idx value s) as [[_ E]|E].
    + rewrite E. now apply check_dim_keeps.
    + now rewrite E.
  - exact Hd.
Qed.

(** X1: a [dim] call on a table whose base is unset leaves the base at 0,
    whether it succeeds or raises; after it [base(0)] succeeds and changes
    nothing and [base(1)] raises DUPLICATE_DEFINITION. *)
Theorem dim_resolves_base (mem : Memory) (name : string) (d : list Z)
  (s : Arrays) :
  _base s = None ->
  let s1 := fst (dim mem name d s) in
  _base s1 = Some 0
  /\ base 0 s1 = (s1, Ok tt)
  /\ base 1 s1 = (s1, Raise (RunError DUPLICATE_DEFINITION)).
Proof.
  intros Hb s1.
  assert (H1 : _base s1 = Some 0).
  { subst s1. rewrite (proj1 (dim_keeps _ _ _ _)). unfold resolved_base.
    now rewrite Hb. }
  split; [exact H1|].
  unfold base, bind, gets, modify, raise. cbn. rewrite H1. cbn.
  split; [|reflexivity]. destruct s1. fields. now subst.
Qed.

(** X2: once the base is set to [b], it is [b] after any sequence of [dim],
    [erase], [clear], [base], [get], [set] and [set_cache] calls, and a
    [base(b')] call then raises STX when [b'] is neither 0 nor 1, succeeds
    without a change when [b' = b], and raises DUPLICATE_DEFINITION
    otherwise. *)
Theorem base_is_final (ops : list operation) (s : Arrays) (b b' : Z) :
  _base s = Some b ->
  let s' := run ops s in
  _base s' = Some b
  /\ base b' s' =
     (s', if negb ((b' =? 1) || (b' =? 0)) then Raise (RunError STX)
          else if b' =? b then Ok tt
               else Raise (RunError DUPLICATE_DEFINITION)).
Proof.
  intros Hb s'.
  assert (H : _base s' = Some b).
  { subst s'. revert s Hb. induction ops as [|op ops IH]; intros s Hb;
      [exact Hb|].
    cbn [run]. apply IH. now apply step_keeps_base. }
  split; [exact H|].
  unfold base, bind, gets, modify, raise.
  destruct (negb _); [reflexivity|]. cbv beta iota. rewrite H.
  destruct (Z.eqb_spec b' b) as [->|_]; cbn; [|reflexivity].
  destruct s'. fields. now subst.
Qed.

(** X3: the dimensions of a declared array are the ones it was given as
    long as it is not erased and the table is not cleared: they are what
    [dimensions] returns after any sequence of other calls, among them a
    [dim] of the same name (which raises) and accesses that go out of
    range. *)
Theorem dimensions_are_fixed (ops : list operation) (s : Arrays)
  (name : string) (d : list Z) :
  Dict.get name (_dims s) = Some d ->
  Forall (fun op => op <> OpErase name /\ op <> OpClear) ops ->
  dimensions name (run ops s) = Ok d.
Proof.
  intros Hd Hops. unfold dimensions, Dict.lookup.
  enough (H : Dict.get name (_dims (run ops s)) = Some d) by now rewrite H.
  revert s Hd. induction Hops as [|op ops [He Hc] _ IH]; intros s Hd;
    [exact Hd|].
  cbn [run]. apply IH. now apply step_keeps_dims.
Qed.

(** ** Declaring and erasing *)

Lemma remove_set_fresh {V} (k : string) (v : V) (d : Dict.t V) :
  Dict.get k d = None -> Dict.remove k (Dict.set k v d) = d.
Proof.
  induction d as [|[k' v'] d IH]; simpl.
  - now rewrite String.eqb_refl.
  - destruct (String.eqb_spec k k') as [->|Hne]; [discriminate|].
    intro H. simpl. destruct (String.eqb_spec k k'); [contradiction|].
    now rewrite IH.
Qed.

Lemma compact_below (b start stop p f : Z) ds bs ms :
  layout b start ds bs ms stop -> stop <= p -> compact p f ms = ms.
Proof.
  induction 1 as [start|start n d0 buf0 ds bs ms stop Hd0 Hlen0 Hl IH];
    intro Hp; simpl; [reflexivity|].
  pose proof (layout_le _ _ _ _ _ _ Hl). pose proof (record_len_pos n d0).
  destruct (Z.ltb_spec p start); [lia|]. now rewrite IH.
Qed.

Lemma dim_success (mem : Memory) (name : string) (d : list Z)
  (s s1 : Arrays) :
  dim mem name d s = (s1, Ok tt) ->
  Dict.contains name (_dims s) = false
  /\ dim_check (Some (resolved_base s)) d = Ok tt
  /\ s1 = declared name d (axes_product (resolved_base s) d) s.
Proof.
  rewrite dim_spec.
  destruct (Dict.contains name (_dims s)); [discriminate|].
  destruct (dim_check _ d) as [[]|e]; [|discriminate].
  cbv zeta. destruct (check_free mem _); [|discriminate].
  intros [= <-]. auto.
Qed.

Lemma wf_undeclared (s : Arrays) (name : string) :
  wf s ->
  Dict.get name (_dims s) = None ->
  Dict.get name (_buffers s) = None
  /\ Dict.get name (_array_memory s) = None.
Proof.
  intros Hwf Hd. pose proof (wf_layout s Hwf) as [_ Hl].
  pose proof (layout_keys _ _ _ _ _ _ Hl) as [Hkb Hkm].
  split; apply get_None_keys; [rewrite Hkb|rewrite Hkm];
    now apply get_None_keys.
Qed.

(** X4: in a well-formed state, erasing an array right after a [dim] that
    declared it succeeds and gives back the table as it was: the same
    dimensions, buffers and addresses of the other arrays and the same
    [current]; only the base stays resolved and the cache has no entry for
    the name. *)
Theorem dim_then_erase (mem : Memory) (name : string) (d : list Z)
  (s s1 : Arrays) :
  wf s ->
  dim mem name d s = (s1, Ok tt) ->
  exists s2,
    erase name s1 = (s2, Ok tt)
    /\ _dims s2 = _dims s
    /\ _buffers s2 = _buffers s
    /\ _array_memory s2 = _array_memory s
    /\ current s2 = current s
    /\ _base s2 = Some (resolved_base s)
    /\ (forall k, k <> name ->
                  Dict.get k (_cache s2) = Dict.get k (_cache s)).
Proof.
  intros Hwf Hdim.
  destruct (dim_success _ _ _ _ _ Hdim) as (Hnew & Hchk & ->).
  assert (Hd : Dict.get name (_dims s) = None).
  { unfold Dict.contains in Hnew.
    destruct (Dict.get name (_dims s)); [discriminate|reflexivity]. }
  destruct (wf_undeclared s name Hwf Hd) as [Hb Hm].
  pose proof (wf_layout s Hwf) as [_ Hl].
  set (rb := resolved_base s) in *.
  set (s1 := declared name d (axes_product rb d) s).
  exists (erased rb name d (current s) s1). split.
  { apply (erase_spec name s1 rb d (current s, current s + record_len name d)).
    - reflexivity.
    - subst s1. unfold declared. fields. apply get_set_eq.
    - subst s1. unfold declared. fields. apply get_set_eq.
    - subst s1. unfold declared, Dict.contains. fields.
      now rewrite get_set_eq.
    - subst s1. unfold declared, Dict.contains. fields.
      now rewrite get_set_eq. }
  subst s1. unfold erased, declared, freed_bytes. fields.
  rewrite !remove_set_fresh by assumption.
  rewrite (compact_below _ _ _ _ _ _ _ _ Hl) by lia.
  repeat split; try reflexivity; try lia.
  intros k Hk. rewrite get_remove_neq, get_set_neq by congruence.
  reflexivity.
Qed.

(** X5: in a well-formed state [erase] of an undeclared name raises IFC and
    changes nothing; [erase] of a declared name succeeds, never stopping
    half-way on a missing key, after it the name is in none of the
    dictionaries of dimensions, buffers and addresses, and the state is
    well-formed again. *)
Theorem erase_outcome (name : string) (s : Arrays) :
  wf s ->
  (contains name s = false -> erase name s = (s, Raise (RunError IFC)))
  /\ (contains name s = true ->
      exists s',
        erase name s = (s', Ok tt)
        /\ contains name s' = false
        /\ Dict.contains name (_buffers s') = false
        /\ Dict.contains name (_array_memory s') = false
        /\ wf s').
Proof.
  intro Hwf. unfold contains, Dict.contains. split.
  - intro H. apply erase_undeclared.
    destruct (Dict.get name (_dims s)); [discriminate|reflexivity].
  - intros H. destruct (Dict.get name (_dims s)) as [d|] eqn:Hd;
      [clear H|discriminate].
    pose proof (wf_layout s Hwf) as [_ Hl].
    pose proof (wf_declared_base s name d Hwf Hd) as Hb.
    destruct (layout_get_dims _ _ _ _ _ _ _ _ Hl Hd) as (h & buf & Hm & Hbuf).
    exists (erased (resolved_base s) name d h s).
    assert (Hwf' : wf (erased (resolved_base s) name d h s))
      by now apply (wf_erased name s _ d h (h + record_len name d)).
    split.
    { rewrite (erase_spec name s _ d _ Hb Hd Hm); [reflexivity| |].
      - unfold Dict.contains. now rewrite Hbuf.
      - apply contains_In_keys. destruct Hwf as (_ & Hc & _). apply Hc.
        eapply get_In_keys; eauto. }
    assert (Hgone : Dict.get name
                      (_dims (erased (resolved_base s) name d h s)) = None).
    { unfold erased. fields. apply get_None_keys, keys_remove_NoDup.
      apply Hwf. }
    destruct (wf_undeclared _ name Hwf' Hgone) as [Hb' Hm'].
    rewrite Hgone, Hb', Hm'. auto.
Qed.

Lemma array_size_bytes_is_buffer_length_aux (name : string) (s : Arrays) :
  wf s ->
  array_size_bytes name s =
  Ok match Dict.get name (_buffers s) with
     | Some buf => Z.of_nat (List.length buf)
     | None => 0
     end.
Proof.
  intro Hwf. pose proof (wf_layout s Hwf) as [_ Hl].
  destruct (Dict.get name (_dims s)) as [d|] eqn:Hd.
  - destruct (layout_get_dims _ _ _ _ _ _ _ _ Hl Hd) as (h & buf & Hm & Hbuf).
    destruct (layout_descriptor _ _ _ _ _ _ _ _ _ _ _ Hl Hd Hm Hbuf)
      as (_ & _ & _ & _ & Hlen).
    rewrite (array_size_bytes_declared s name d _
               (wf_declared_base s name d Hwf Hd) Hd).
    now rewrite Hbuf, Hlen.
  - destruct (wf_undeclared s name Hwf Hd) as [-> _].
    unfold array_size_bytes. now rewrite Hd.
Qed.

(** X6: in a well-formed state [array_size_bytes] of a name is the length
    of its buffer, and 0 for a name that has none. *)
Theorem array_size_bytes_is_buffer_length (name : string) (s : Arrays) :
  wf s ->
  array_size_bytes name s =
  Ok match Dict.get name (_buffers s) with
     | Some buf => Z.of_nat (List.length buf)
     | None => 0
     end.
Proof. exact (array_size_bytes_is_buffer_length_aux name s). Qed.

(** ** Addresses outside and inside the arena *)

Lemma get_memory_loop_last (b start stop address : Z) ds bs ms :
  layout b start ds bs ms stop ->
  NoDup (Dict.keys ds) ->
  ms <> [] ->
  stop <= address ->
  forall name_addr arr_addr the_arr,
    name_addr < start ->
    exists name d h a buf,
      get_memory_loop address ms name_addr arr_addr the_arr
      = (h, a, Some name)
      /\ Dict.get name ds = Some d
      /\ Dict.get name bs = Some buf
      /\ a + Z.of_nat (List.length buf) = stop.
Proof.
  induction 1 as [start|start n d0 buf0 ds bs ms stop Hd0 Hlen0 Hl IH];
    intros Hnd Hne Hstop name_addr arr_addr the_arr Hlt; [congruence|].
  simpl in Hnd. inversion Hnd as [|? ? Hnin Hnd']; subst.
  pose proof (record_len_pos n d0) as Hr.
  pose proof (layout_le _ _ _ _ _ _ Hl) as Hle.
  cbn [get_memory_loop].
  destruct (Z.leb_spec start address) as [_|Hgt]; [|lia].
  destruct (Z.ltb_spec name_addr start) as [_|Hge]; [|lia]. cbn [andb].
  destruct ms as [|e ms].
  - inversion Hl; subst. cbn [get_memory_loop].
    exists n, d0, start, (start + record_len n d0), buf0. simpl.
    rewrite String.eqb_refl. auto.
  - destruct (IH Hnd' ltac:(discriminate) Hstop start
                (start + record_len n d0) (Some n) ltac:(lia))
      as (name & d & h & a & buf & Hloop & H1 & H2 & H3).
    exists name, d, h, a, buf. split; [exact Hloop|]. simpl.
    destruct (String.eqb_spec name n) as [->|_]; [|auto].
    exfalso. apply Hnin. eapply get_In_keys; eauto.
Qed.

(** X8: in a well-formed state, with the arena at a non-negative address,
    [get_memory] returns -1 and does not raise for every address below 0
    and for every address at or past the end of the arena,
    [var_current + current]; on an empty table it is -1 everywhere in that
    range. *)
Theorem get_memory_outside_arena (mem : Memory) (address : Z) (s : Arrays) :
  wf s ->
  0 <= var_current mem ->
  address < 0 \/ var_current mem + current s <= address ->
  get_memory mem address s = Ok (-1).
Proof.
  intros Hwf Hvc Haddr. pose proof (wf_layout s Hwf) as [_ Hl].
  unfold get_memory. destruct Haddr as [Hneg|Hpast].
  - now rewrite (get_memory_loop_above _ _ _ address _ _ _ Hl) by lia.
  - destruct (_array_memory s) as [|e ms] eqn:Hms; [reflexivity|].
    rewrite <- Hms in *.
    destruct (get_memory_loop_last _ _ _ address _ _ _ Hl (proj1 Hwf)
                ltac:(rewrite Hms; discriminate) ltac:(lia) (-1) (-1) None
                ltac:(lia))
      as (name & d & h & a & buf & -> & Hd & Hbuf & Hend).
    destruct (Z.leb_spec (var_current mem + a) address) as [_|Hlt]; [|lia].
    pose proof (array_size_bytes_is_buffer_length_aux name s Hwf) as Hsize.
    rewrite Hbuf in Hsize. rewrite Hsize. cbn [and_then].
    destruct (Z.leb_spec (Z.of_nat (List.length buf))
                (address - a - var_current mem)) as [_|Hlt]; [reflexivity|].
    lia.
Qed.

Lemma dereference_loop_none (vc address : Z) (items : Dict.t (Z * Z)) :
  Forall (fun e => address < vc + snd (snd e)) items ->
  forall found_addr name,
    snd (fst (dereference_loop vc address items found_addr None name)) = None.
Proof.
  induction 1 as [|[n [h a]] items He _ IH]; intros found_addr name;
    [reflexivity|].
  cbn [dereference_loop snd] in *.
  destruct (Z.leb_spec (vc + a) address) as [Hle|_]; [lia|].
  rewrite andb_false_r. apply IH.
Qed.

(** X9: [dereference] of an address below the data address of every array,
    and so of any address on an empty table, returns [None] and does not
    raise. *)
Theorem dereference_below_data (mem : Memory) (address : Z) (s : Arrays) :
  Forall (fun e => address < var_current mem + snd (snd e))
    (_array_memory s) ->
  dereference mem address s = Ok None.
Proof.
  intro H. unfold dereference.
  pose proof (dereference_loop_none _ _ _ H (-1) None) as Hnone.
  destruct (dereference_loop _ address _ (-1) None None) as [[fa fn] n].
  cbn [fst snd] in Hnone. now subst fn.
Qed.

Lemma dereference_loop_app (vc address : Z) (l1 l2 : Dict.t (Z * Z)) :
  forall found_addr found_name name,
    dereference_loop vc address (l1 ++ l2) found_addr found_name name =
    match dereference_loop vc address l1 found_addr found_name name with
    | (fa, fn, n) => dereference_loop vc address l2 fa fn n
    end.
Proof.
  induction l1 as [|[n [h a]] l1 IH]; intros found_addr found_name name;
    [reflexivity|].
  cbn [app dereference_loop].
  destruct ((found_addr <? vc + snd (h, a)) && (vc + snd (h, a) <=? address));
    apply IH.
Qed.

Lemma get_app_last {V} (k : string) (v : V) (l : Dict.t V) :
  ~ In k (Dict.keys l) -> Dict.get k (l ++ [(k, v)]) = Some v.
Proof.
  induction l as [|[k' v'] l IH]; simpl; intro H.
  - now rewrite String.eqb_refl.
  - destruct (String.eqb_spec k k') as [->|_]; [tauto|]. apply IH. tauto.
Qed.

Lemma slice_inside {A} (l : list A) (a b : Z) :
  0 <= a <= b -> b <= Z.of_nat (List.length l) ->
  slice l a b = firstn (Z.to_nat (b - a)) (skipn (Z.to_nat a) l).
Proof.
  intros Ha Hb. unfold slice. now rewrite !slice_bound_inside by lia.
Qed.

(** ** The index check *)

Lemma check_index_ok_legal (b : Z) (idx d : list Z) :
  List.length idx = List.length d ->
  check_index (Some b) idx d = Ok tt ->
  legal_index b idx d.
Proof.
  revert d. induction idx as [|i idx IH]; intros [|x d] Hlen H;
    try discriminate; [constructor|].
  cbn [check_index lt_base] in H.
  destruct (Z.ltb_spec i 0); [discriminate|].
  destruct (Z.ltb_spec i b); [discriminate|].
  destruct (Z.ltb_spec x i); [discriminate|]. cbn [orb] in H.
  constructor; [lia|]. apply IH; [now injection Hlen|exact H].
Qed.

Lemma check_index_raises (b : option Z) (idx d : list Z) (e : exception) :
  check_index b idx d = Raise e ->
  e = RunError SUBSCRIPT_OUT_OF_RANGE
  \/ (e = RunError IFC /\ Exists (fun i => i < 0) idx).
Proof.
  revert d. induction idx as [|i idx IH]; intros [|x d] H; try discriminate.
  cbn [check_index] in H.
  destruct (Z.ltb_spec i 0).
  - injection H as <-. right. split; [reflexivity|now constructor].
  - destruct (lt_base i b || (x <? i)).
    + injection H as <-. now left.
    + destruct (IH d H) as [->|[-> Hex]]; [now left|right].
      split; [reflexivity|now apply Exists_cons_tl].
Qed.

(** X11: in a well-formed state [check_dim] of a declared name leaves the
    state alone and accepts exactly the legal indices: it returns the
    dimensions for an index of the right arity with every component
    between the base and the maximum of its axis, raises
    SUBSCRIPT_OUT_OF_RANGE for a wrong arity, and otherwise raises
    SUBSCRIPT_OUT_OF_RANGE or, only with a negative component, IFC. *)
Theorem check_dim_declared_outcome (mem : Memory) (name : string)
  (idx d : list Z) (s : Arrays) :
  wf s ->
  Dict.get name (_dims s) = Some d ->
  (legal_index (resolved_base s) idx d ->
   check_dim mem name idx s = (s, Ok (d, name)))
  /\ (List.length idx <> List.length d ->
      check_dim mem name idx s
      = (s, Raise (RunError SUBSCRIPT_OUT_OF_RANGE)))
  /\ (~ legal_index (resolved_base s) idx d ->
      exists code,
        check_dim mem name idx s = (s, Raise (RunError code))
        /\ (code = SUBSCRIPT_OUT_OF_RANGE
            \/ (code = IFC /\ Exists (fun i => i < 0) idx))).
Proof.
  intros Hwf Hd. pose proof (wf_layout s Hwf) as [Hb01 Hl].
  pose proof (wf_declared_base s name d Hwf Hd) as Hb.
  destruct (layout_get_dims _ _ _ _ _ _ _ _ Hl Hd) as (h & buf & Hm & Hbuf).
  rewrite (check_dim_declared mem name idx d s Hd).
  unfold checked, Dict.lookup. rewrite Hbuf, Hb. cbn [and_then].
  split; [|split].
  - intro Hidx. rewrite (Forall2_length Hidx), Nat.eqb_refl. cbn [negb].
    now rewrite check_index_legal by (assumption || lia).
  - intro Hlen. apply Nat.eqb_neq in Hlen. now rewrite Hlen.
  - intro Hbad. destruct (Nat.eqb_spec (List.length idx) (List.length d))
      as [Hlen|Hlen]; cbn [negb].
    + destruct (check_index _ idx d) as [[]|e] eqn:Hchk.
      * exfalso. apply Hbad. now apply check_index_ok_legal.
      * cbn [and_then].
        destruct (check_index_raises _ _ _ _ Hchk) as [->|[-> Hex]];
          eexists; split; try reflexivity; auto.
    + exists SUBSCRIPT_OUT_OF_RANGE. split; [reflexivity|now left].
Qed.

(** ** The flat offset *)

Lemma index_loop_flat (b : Z) (idx d : list Z) :
  List.length idx = List.length d ->
  forall bigindex area,
    index_loop (Some b) idx d bigindex area
    = Ok (bigindex + area * flat_offset b idx d).
Proof.
  revert d. induction idx as [|i idx IH]; intros [|x d] Hlen bigindex area;
    try discriminate; simpl.
  - f_equal. lia.
  - rewrite IH by now injection Hlen. f_equal. lia.
Qed.

Lemma index_flat (b : Z) (idx d : list Z) :
  List.length idx = List.length d ->
  index (Some b) idx d = Ok (flat_offset b idx d).
Proof.
  intro Hlen. unfold index. rewrite index_loop_flat by exact Hlen.
  f_equal. lia.
Qed.

Lemma flat_offset_bound (b : Z) (idx d : list Z) :
  legal_index b idx d -> 0 <= flat_offset b idx d < axes_product b d.
Proof.
  induction 1 as [|i x idx d Hi _ IH]; simpl; [lia|nia].
Qed.

Lemma flat_offset_injective (b : Z) (idx1 idx2 d : list Z) :
  legal_index b idx1 d -> legal_index b idx2 d ->
  flat_offset b idx1 d = flat_offset b idx2 d ->
  idx1 = idx2.
Proof.
  intro H1. revert idx2.
  induction H1 as [|i1 x idx1 d Hi1 H1 IH]; intros idx2 H2 Heq.
  - now inversion H2.
  - inversion H2 as [|i2 x' idx2' d' Hi2 H2']; subst. simpl in Heq.
    pose proof (flat_offset_bound _ _ _ H1) as B1.
    pose proof (flat_offset_bound _ _ _ H2') as B2.
    assert (Hk : flat_offset b idx1 d = flat_offset b idx2' d) by nia.
    f_equal; [nia|now apply IH].
Qed.

Lemma flat_offset_surjective (b : Z) (d : list Z) :
  Forall (fun x => b <= x) d ->
  forall k, 0 <= k < axes_product b d ->
  exists idx, legal_index b idx d /\ flat_offset b idx d = k.
Proof.
  induction 1 as [|x d Hx Hd IH]; intros k Hk; simpl in Hk.
  - exists []. split; [constructor|simpl; lia].
  - pose proof (axes_product_pos b d Hd) as Hpos.
    assert (Hn : 0 < x + 1 - b) by lia.
    pose proof (Z.mod_pos_bound k (x + 1 - b) Hn) as Hmod.
    pose proof (Z.div_mod k (x + 1 - b) ltac:(lia)) as Hdm.
    destruct (IH (k / (x + 1 - b))) as (idx & Hidx & Hflat).
    { split; [apply Z.div_pos; lia|].
      apply Z.div_lt_upper_bound; lia. }
    exists (b + k mod (x + 1 - b) :: idx). split.
    + constructor; [lia|exact Hidx].
    + simpl. rewrite Hflat. lia.
Qed.

(** X12: for dimensions that are all at least the base, [index] maps the
    legal indices one-to-one onto the element numbers 0 to [array_len] - 1:
    it never raises on a legal index, different legal indices get
    different flat offsets, and every offset below the length belongs to a
    legal index. *)
Theorem index_is_a_bijection (b : Z) (d : list Z) :
  Forall (fun x => b <= x) d ->
  (forall idx, legal_index b idx d ->
     exists k, index (Some b) idx d = Ok k /\ 0 <= k
               /\ array_len (Some b) d = Ok (axes_product b d)
               /\ k < axes_product b d)
  /\ (forall idx1 idx2,
        legal_index b idx1 d -> legal_index b idx2 d ->
        index (Some b) idx1 d = index (Some b) idx2 d -> idx1 = idx2)
  /\ (forall k, 0 <= k < axes_product b d ->
        exists idx, legal_index b idx d /\ index (Some b) idx d = Ok k).
Proof.
  intro Hd. split; [|split].
  - intros idx Hidx. exists (flat_offset b idx d).
    pose proof (flat_offset_bound _ _ _ Hidx).
    rewrite index_flat by exact (Forall2_length Hidx).
    rewrite array_len_axes_product. repeat split; lia.
  - intros idx1 idx2 H1 H2.
    rewrite !index_flat by (eapply Forall2_length; eassumption).
    intros [= Heq]. eapply flat_offset_injective; eauto.
  - intros k Hk. destruct (flat_offset_surjective b d Hd k Hk)
      as (idx & Hidx & <-).
    exists idx. split; [exact Hidx|].
    apply index_flat. exact (Forall2_length Hidx).
Qed.

(** ** Writes *)

Lemma window_app_frame {A} (l1 x x' t : list A) (lo n : nat) :
  List.length x = List.length x' ->
  (lo + n <= List.length l1 \/ List.length l1 + List.length x <= lo)%nat ->
  firstn n (skipn lo (l1 ++ x ++ t)) = firstn n (skipn lo (l1 ++ x' ++ t)).
Proof.
  intros Hlen [Hbefore|Hafter].
  - rewrite !skipn_app. replace (lo - List.length l1)%nat with 0%nat by lia.
    cbn [skipn]. rewrite !firstn_app, length_skipn.
    replace (n - (List.length l1 - lo))%nat with 0%nat by lia.
    reflexivity.
  - rewrite !app_assoc.
    rewrite (skipn_app lo (l1 ++ x) t), (skipn_app lo (l1 ++ x') t).
    rewrite (skipn_all2 (n := lo) (l1 ++ x)) by (rewrite length_app; lia).
    rewrite (skipn_all2 (n := lo) (l1 ++ x')) by (rewrite length_app; lia).
    now rewrite !length_app, Hlen.
Qed.

Lemma spliced_window (buf bs : list byte) (lo lo2 n : Z) :
  0 <= lo -> lo + Z.of_nat (List.length bs) <= Z.of_nat (List.length buf) ->
  0 <= lo2 -> 0 <= n ->
  lo2 + n <= lo \/ lo + Z.of_nat (List.length bs) <= lo2 ->
  firstn (Z.to_nat n) (skipn (Z.to_nat lo2) (spliced buf bs lo))
  = firstn (Z.to_nat n) (skipn (Z.to_nat lo2) buf).
Proof.
  intros Hlo Hfit Hlo2 Hn Hapart. unfold spliced.
  replace (Z.to_nat (lo + Z.of_nat (List.length bs)))
    with (List.length bs + Z.to_nat lo)%nat by lia.
  transitivity
    (firstn (Z.to_nat n)
       (skipn (Z.to_nat lo2)
          (firstn (Z.to_nat lo) buf
           ++ firstn (List.length bs) (skipn (Z.to_nat lo) buf)
           ++ skipn (List.length bs + Z.to_nat lo) buf))).
  - apply window_app_frame.
    + rewrite length_firstn, length_skipn. lia.
    + rewrite length_firstn. lia.
  - rewrite <- skipn_skipn, !firstn_skipn. reflexivity.
Qed.

Lemma spliced_length (buf bs : list byte) (lo : Z) :
  0 <= lo -> lo + Z.of_nat (List.length bs) <= Z.of_nat (List.length buf) ->
  List.length (spliced buf bs lo) = List.length buf.
Proof.
  intros Hlo Hfit. unfold spliced.
  rewrite !length_app, length_firstn, length_skipn. lia.
Qed.

(** The view of a legal element is the window at its flat offset. *)
Lemma view_buffer_flat (mem : Memory) (name : string) (idx d : list Z)
  (s : Arrays) (buf : list byte) :
  wf s ->
  Dict.get name (_dims s) = Some d ->
  Dict.get name (_buffers s) = Some buf ->
  legal_index (resolved_base s) idx d ->
  let k := flat_offset (resolved_base s) idx d in
  view_buffer mem name idx s
  = (s, Ok (mkView name (k * size_bytes name) ((k + 1) * size_bytes name)))
  /\ 0 <= k * size_bytes name
  /\ (k + 1) * size_bytes name <= Z.of_nat (List.length buf).
Proof.
  intros Hwf Hd Hbuf Hidx k.
  pose proof (wf_layout s Hwf) as [Hb01 Hl].
  destruct (layout_get_dims _ _ _ _ _ _ _ _ Hl Hd) as (h & buf0 & Hm & Hbuf0).
  rewrite Hbuf in Hbuf0. injection Hbuf0 as <-.
  destruct (layout_descriptor _ _ _ _ _ _ _ _ _ _ _ Hl Hd Hm Hbuf)
    as (_ & _ & _ & _ & Hlen).
  pose proof (wf_declared_base s name d Hwf Hd) as Hb.
  pose proof (size_bytes_pos name) as Hsz.
  pose proof (flat_offset_bound _ _ _ Hidx) as Hk. fold k in Hk.
  destruct (view_buffer_legal mem name idx d s _ buf Hb ltac:(lia) Hd Hbuf
              Hlen Hidx) as (k' & Hk' & _ & Hview).
  rewrite index_flat in Hk' by exact (Forall2_length Hidx).
  injection Hk' as <-. fold k in Hview. split; [exact Hview|]. nia.
Qed.

(** What [set] does to a legal element of a declared array. *)
Lemma set_legal (mem : Memory) (name : string) (idx d : list Z) (v : Value)
  (sigil : ascii) (bs buf : list byte) (s : Arrays) :
  wf s ->
  Dict.get name (_dims s) = Some d ->
  Dict.get name (_buffers s) = Some buf ->
  legal_index (resolved_base s) idx d ->
  last_char name = Some sigil ->
  to_bytes sigil v = Ok bs ->
  let lo := flat_offset (resolved_base s) idx d * size_bytes name in
  set mem name idx v s
  = (with_cache (Dict.set name None (_cache s))
       (with_buffers (Dict.set name (spliced buf bs lo) (_buffers s)) s),
     Ok tt)
  /\ 0 <= lo
  /\ lo + Z.of_nat (List.length bs) <= Z.of_nat (List.length buf)
  /\ Z.of_nat (List.length bs) = size_bytes name.
Proof.
  intros Hwf Hd Hbuf Hidx Hlast Henc lo.
  destruct (view_buffer_flat mem name idx d s buf Hwf Hd Hbuf Hidx)
    as (Hview & Hlo & Hhi).
  pose proof (to_bytes_size name sigil v bs Hlast Henc) as Hbs.
  fold lo in Hview, Hlo. split; [|lia].
  unfold set. rewrite Hlast. unfold bind at 1, lift. rewrite Henc.
  unfold bind at 1. rewrite Hview.
  unfold view_assign. cbn [view_start view_stop view_of].
  replace (Z.of_nat (List.length bs)
           =? (flat_offset (resolved_base s) idx d + 1) * size_bytes name - lo)
    with true by (symmetry; apply Z.eqb_eq; subst lo; lia).
  cbn [negb]. unfold bind, gets, lift, modify, Dict.lookup.
  rewrite Hbuf. unfold spliced.
  replace (lo + Z.of_nat (List.length bs))
    with ((flat_offset (resolved_base s) idx d + 1) * size_bytes name)
    by (subst lo; lia).
  reflexivity.
Qed.

(** X13: in a well-formed state, a [set] of one element of an array leaves
    every other element of that array as it was: for two different legal
    indices, the view of the second shows the same bytes after the [set] of
    the first as before. *)
Theorem set_leaves_other_elements (mem mem' : Memory) (name : string)
  (idx idx' d : list Z) (v : Value) (sigil : ascii) (bs : list byte)
  (s : Arrays) :
  wf s ->
  Dict.get name (_dims s) = Some d ->
  legal_index (resolved_base s) idx d ->
  legal_index (resolved_base s) idx' d ->
  idx <> idx' ->
  last_char name = Some sigil ->
  to_bytes sigil v = Ok bs ->
  exists s1 view,
    set mem name idx v s = (s1, Ok tt)
    /\ get mem' name idx' s = (s, Ok view)
    /\ get mem' name idx' s1 = (s1, Ok view)
    /\ view_bytes s1 view = view_bytes s view.
Proof.
  intros Hwf Hd Hidx Hidx' Hne Hlast Henc.
  pose proof (wf_layout s Hwf) as [_ Hl].
  destruct (layout_get_dims _ _ _ _ _ _ _ _ Hl Hd) as (h & buf & Hm & Hbuf).
  destruct (set_legal mem name idx d v sigil bs buf s Hwf Hd Hbuf Hidx Hlast
              Henc) as (Hset & Hlo & Hfit & Hbs).
  set (lo := flat_offset (resolved_base s) idx d * size_bytes name) in *.
  set (s1 := with_cache (Dict.set name None (_cache s))
               (with_buffers (Dict.set name (spliced buf bs lo) (_buffers s))
                  s)) in *.
  assert (Hwf1 : wf s1).
  { subst s1.
    apply (wf_with_cache
             (with_buffers (Dict.set name (spliced buf bs lo) (_buffers s)) s)
             name None).
    apply (wf_with_buffer s name buf); [exact Hwf|exact Hbuf|].
    now apply spliced_length. }
  assert (Hbuf1 : Dict.get name (_buffers s1) = Some (spliced buf bs lo))
    by (subst s1; fields; apply get_set_eq).
  destruct (view_buffer_flat mem' name idx' d s buf Hwf Hd Hbuf Hidx')
    as (Hview & Hlo' & Hhi').
  destruct (view_buffer_flat mem' name idx' d s1 _ Hwf1 Hd Hbuf1 Hidx')
    as (Hview1 & _).
  set (k' := flat_offset (resolved_base s) idx' d) in *.
  exists s1, (mkView name (k' * size_bytes name) ((k' + 1) * size_bytes name)).
  split; [exact Hset|]. split; [exact Hview|]. split; [exact Hview1|].
  unfold view_bytes. cbn [view_of view_start view_stop].
  rewrite Hbuf1, Hbuf.
  pose proof (size_bytes_pos name) as Hsz.
  assert (Hk : flat_offset (resolved_base s) idx d <> k').
  { intro E. apply Hne. eapply flat_offset_injective; eauto. }
  apply spliced_window; try lia. subst lo. nia.
Qed.

Lemma dim_frame (mem : Memory) (n : string) (dd : list Z) (s : Arrays)
  (name : string) :
  name <> n ->
  let s' := fst (dim mem n dd s) in
  Dict.get name (_dims s') = Dict.get name (_dims s)
  /\ Dict.get name (_buffers s') = Dict.get name (_buffers s)
  /\ Dict.get name (_array_memory s') = Dict.get name (_array_memory s)
  /\ Dict.get name (_cache s') = Dict.get name (_cache s).
Proof.
  intros Hne s'. subst s'. rewrite dim_spec.
  assert (Hres : forall s0, s0 = resolve_base s ->
            Dict.get name (_dims s0) = Dict.get name (_dims s)
            /\ Dict.get name (_buffers s0) = Dict.get name (_buffers s)
            /\ Dict.get name (_array_memory s0)
               = Dict.get name (_array_memory s)
            /\ Dict.get name (_cache s0) = Dict.get name (_cache s)).
  { intros s0 ->. unfold resolve_base. destruct (_base s); auto. }
  destruct (Dict.contains n (_dims s)); [now apply Hres|].
  destruct (dim_check _ dd); [|now apply Hres].
  cbv zeta. destruct (check_free mem _); [|now apply Hres].
  cbn [fst]. unfold declared. fields.
  rewrite !get_set_neq by congruence. auto.
Qed.

Lemma check_dim_frame (mem : Memory) (n : string) (idx : list Z)
  (s : Arrays) (name : string) :
  name <> n ->
  let s' := fst (check_dim mem n idx s) in
  Dict.get name (_dims s') = Dict.get name (_dims s)
  /\ Dict.get name (_buffers s') = Dict.get name (_buffers s)
  /\ Dict.get name (_array_memory s') = Dict.get name (_array_memory s)
  /\ Dict.get name (_cache s') = Dict.get name (_cache s).
Proof.
  intros Hne s'. subst s'.
  destruct (Dict.get n (_dims s)) as [d0|] eqn:Hn.
  - rewrite (check_dim_declared mem n idx d0 s Hn). auto.
  - rewrite (check_dim_undeclared mem n idx s Hn). cbv zeta.
    pose proof (dim_frame mem n (repeat 10 (List.length idx)) s name Hne)
      as H.
    destruct (dim mem n _ s) as [s' [[]|e]]; exact H.
Qed.

(** X14: a [set] call on one array, whether it succeeds, raises or
    auto-dimensions the array first, leaves the dimensions, the buffer, the
    addresses and the cache entry of every other name as they were. *)
Theorem set_leaves_other_arrays (mem : Memory) (n : string) (idx : list Z)
  (v : Value) (s : Arrays) (name : string) :
  name <> n ->
  let s' := fst (set mem n idx v s) in
  Dict.get name (_dims s') = Dict.get name (_dims s)
  /\ Dict.get name (_buffers s') = Dict.get name (_buffers s)
  /\ Dict.get name (_array_memory s') = Dict.get name (_array_memory s)
  /\ Dict.get name (_cache s') = Dict.get name (_cache s).
Proof.
  intros Hne s'. subst s'. unfold set.
  destruct (last_char n); [|auto].
  unfold view_assign, bind, lift, gets, modify, raise, Dict.lookup.
  destruct (to_bytes _ v); [|auto].
  pose proof (check_dim_frame mem n idx s name Hne) as Hframe.
  pose proof (view_buffer_state mem n idx s) as [Hst Hv].
  rewrite <- Hst in Hframe, Hv. cbv zeta in Hframe.
  destruct (view_buffer mem n idx s) as [s1 [view|e]]; [|exact Hframe].
  cbn [fst snd] in *.
  destruct (Hv view eq_refl) as (buf & Hbuf & Hof & _).
  destruct (negb _); [exact Hframe|]. cbv beta.
  rewrite Hof, Hbuf. cbn [fst]. fields.
  rewrite !get_set_neq by congruence. exact Hframe.
Qed.

(** X15: the cache slot of an array holds what [set_cache] stored, and a
    successful [set] of any element of the array empties it: in a
    well-formed state, after [set_cache(name, item)], [get_cache(name)]
    returns [item], and after a following [set] of a legal element it
    returns [None]. *)
Theorem set_drops_cache (mem : Memory) (name : string) (idx d : list Z)
  (v : Value) (sigil : ascii) (bs : list byte) (item : option Sprite)
  (s : Arrays) :
  wf s ->
  Dict.get name (_dims s) = Some d ->
  legal_index (resolved_base s) idx d ->
  last_char name = Some sigil ->
  to_bytes sigil v = Ok bs ->
  let s0 := fst (set_cache name item s) in
  get_cache name s0 = Ok item
  /\ exists s1,
       set mem name idx v s0 = (s1, Ok tt)
       /\ get_cache name s1 = Ok None.
Proof.
  intros Hwf Hd Hidx Hlast Henc s0.
  assert (Hwf0 : wf s0) by (subst s0; now apply wf_with_cache).
  split.
  { subst s0. unfold get_cache, set_cache, modify, Dict.lookup.
    cbn [fst]. fields. now rewrite get_set_eq. }
  pose proof (wf_layout s Hwf) as [_ Hl].
  destruct (layout_get_dims _ _ _ _ _ _ _ _ Hl Hd) as (h & buf & Hm & Hbuf).
  destruct (set_legal mem name idx d v sigil bs buf s0 Hwf0 Hd Hbuf Hidx
              Hlast Henc) as (Hset & _).
  eexists. split; [exact Hset|].
  unfold get_cache, Dict.lookup. fields. now rewrite get_set_eq.
Qed.

(** ** Reads *)

Lemma window_repeat {A} (x : A) (total lo n : nat) :
  (lo + n <= total)%nat ->
  firstn n (skipn lo (repeat x total)) = repeat x n.
Proof.
  intro H. replace total with (lo + (n + (total - lo - n)))%nat by lia.
  rewrite !repeat_app, skipn_app, repeat_length.
  rewrite skipn_all2 by (rewrite repeat_length; lia).
  replace (lo - lo)%nat with 0%nat by lia. cbn [skipn app].
  rewrite firstn_app, repeat_length.
  rewrite firstn_all2 by (rewrite repeat_length; lia).
  replace (n - n)%nat with 0%nat by lia. cbn [firstn]. apply app_nil_r.
Qed.

Lemma resolved_base_declared (name : string) (d : list Z) (size : Z)
  (s : Arrays) :
  resolved_base (declared name d size s) = resolved_base s.
Proof. reflexivity. Qed.

(** X16: in a well-formed state, after a [dim] that succeeded the name is
    declared with the dimensions given and an empty cache slot, and every
    legal element reads as [size_bytes(name)] zero bytes. *)
Theorem fresh_array_reads_zero (mem mem' : Memory) (name : string)
  (idx d : list Z) (s s1 : Arrays) :
  wf s ->
  dim mem name d s = (s1, Ok tt) ->
  legal_index (resolved_base s) idx d ->
  contains name s1 = true
  /\ dimensions name s1 = Ok d
  /\ get_cache name s1 = Ok None
  /\ exists view,
       get mem' name idx s1 = (s1, Ok view)
       /\ view_bytes s1 view = repeat x00 (Z.to_nat (size_bytes name)).
Proof.
  intros Hwf Hdim Hidx.
  destruct (dim_success _ _ _ _ _ Hdim) as (Hnew & Hchk & ->).
  pose proof (wf_declared name d s Hwf Hnew Hchk) as Hwf1.
  set (rb := resolved_base s) in *.
  set (s1 := declared name d (axes_product rb d) s) in *.
  assert (Hd1 : Dict.get name (_dims s1) = Some d)
    by (subst s1; unfold declared; fields; apply get_set_eq).
  assert (Hb1 : Dict.get name (_buffers s1)
                = Some (repeat x00
                          (Z.to_nat (axes_product rb d * size_bytes name))))
    by (subst s1; unfold declared; fields; apply get_set_eq).
  unfold contains, dimensions, get_cache, Dict.contains, Dict.lookup.
  rewrite Hd1. split; [reflexivity|]. split; [reflexivity|].
  split.
  { subst s1. unfold declared. fields. now rewrite get_set_eq. }
  destruct (view_buffer_flat mem' name idx d s1 _ Hwf1 Hd1 Hb1 Hidx)
    as (Hview & Hlo & Hhi).
  eexists. split; [exact Hview|].
  unfold view_bytes. cbn [view_of view_start view_stop]. rewrite Hb1.
  rewrite repeat_length in Hhi.
  pose proof (size_bytes_pos name) as Hsz.
  change (resolved_base s1) with rb in *.
  replace (Z.to_nat ((flat_offset rb idx d + 1) * size_bytes name
                     - flat_offset rb idx d * size_bytes name))
    with (Z.to_nat (size_bytes name)) by (f_equal; lia).
  apply window_repeat. lia.
Qed.

(** X17: in a well-formed state the address [varptr] gives for a legal
    index of a declared array lies in the array's data, with room for a
    whole element before the end of the buffer, and the addresses of two
    different legal indices are at least one element apart. *)
Theorem varptr_in_data (mem : Memory) (name : string) (idx1 idx2 d : list Z)
  (s : Arrays) :
  wf s ->
  Dict.get name (_dims s) = Some d ->
  legal_index (resolved_base s) idx1 d ->
  legal_index (resolved_base s) idx2 d ->
  exists h a buf a1 a2,
    descriptor s name d h a buf
    /\ varptr mem name idx1 s = Ok a1
    /\ varptr mem name idx2 s = Ok a2
    /\ var_current mem + a <= a1
    /\ a1 + size_bytes name
       <= var_current mem + a + Z.of_nat (List.length buf)
    /\ (idx1 <> idx2 ->
        a1 + size_bytes name <= a2 \/ a2 + size_bytes name <= a1).
Proof.
  intros Hwf Hd H1 H2. pose proof (wf_layout s Hwf) as [_ Hl].
  destruct (layout_get_dims _ _ _ _ _ _ _ _ Hl Hd) as (h & buf & Hm & Hbuf).
  destruct (layout_descriptor _ _ _ _ _ _ _ _ _ _ _ Hl Hd Hm Hbuf)
    as (_ & _ & _ & _ & Hlen).
  pose proof (wf_declared_base s name d Hwf Hd) as Hb.
  pose proof (size_bytes_pos name) as Hsz.
  pose proof (flat_offset_bound _ _ _ H1) as B1.
  pose proof (flat_offset_bound _ _ _ H2) as B2.
  set (rb := resolved_base s) in *.
  exists h, (h + record_len name d), buf,
    (var_current mem + (h + record_len name d)
     + size_bytes name * flat_offset rb idx1 d),
    (var_current mem + (h + record_len name d)
     + size_bytes name * flat_offset rb idx2 d).
  split; [now repeat split|].
  unfold varptr, Dict.lookup. rewrite Hd, Hm, Hb. cbn [and_then snd].
  rewrite !index_flat by (eapply Forall2_length; eassumption).
  cbn [and_then]. repeat split; try nia.
  intro Hne.
  assert (Hk : flat_offset rb idx1 d <> flat_offset rb idx2 d).
  { intro E. apply Hne. eapply flat_offset_injective; eauto. }
  nia.
Qed.

(** X18: in a well-formed state, erasing an array leaves the elements of
    every other array readable with the bytes they had: for a declared
    array A, another declared array B and a legal index of B, [erase A]
    succeeds and [get] of the element of B returns the same view with the
    same bytes before and after. *)
Theorem erase_keeps_other_contents (mem : Memory) (A B : string)
  (idx dB : list Z) (s : Arrays) :
  wf s ->
  contains A s = true ->
  Dict.get B (_dims s) = Some dB ->
  B <> A ->
  legal_index (resolved_base s) idx dB ->
  exists s' view,
    erase A s = (s', Ok tt)
    /\ get mem B idx s = (s, Ok view)
    /\ get mem B idx s' = (s', Ok view)
    /\ view_bytes s' view = view_bytes s view.
Proof.
  intros Hwf HA HdB Hne Hidx. pose proof (wf_layout s Hwf) as [_ Hl].
  unfold contains, Dict.contains in HA.
  destruct (Dict.get A (_dims s)) as [dA|] eqn:HdA; [clear HA|discriminate].
  pose proof (wf_declared_base s A dA Hwf HdA) as Hb.
  destruct (layout_get_dims _ _ _ _ _ _ _ _ Hl HdA) as (hA & bufA & HmA & HbA).
  destruct (layout_get_dims _ _ _ _ _ _ _ _ Hl HdB) as (hB & bufB & HmB & HbB).
  set (rb := resolved_base s) in *.
  set (s' := erased rb A dA hA s).
  assert (Hwf' : wf s')
    by now apply (wf_erased A s rb dA hA (hA + record_len A dA)).
  assert (HdB' : Dict.get B (_dims s') = Some dB)
    by (subst s'; unfold erased; fields; now rewrite get_remove_neq).
  assert (HbB' : Dict.get B (_buffers s') = Some bufB)
    by (subst s'; unfold erased; fields; now rewrite get_remove_neq).
  assert (Hrb : resolved_base s' = rb).
  { subst s'. unfold erased, resolved_base. fields. now rewrite Hb. }
  destruct (view_buffer_flat mem B idx dB s bufB Hwf HdB HbB Hidx)
    as (Hview & _).
  destruct (view_buffer_flat mem B idx dB s' bufB Hwf' HdB' HbB'
              ltac:(now rewrite Hrb)) as (Hview' & _).
  rewrite Hrb in Hview'.
  exists s'. eexists. split; [|split; [exact Hview|split; [exact Hview'|]]].
  - rewrite (erase_spec A s rb dA _ Hb HdA HmA); [reflexivity| |].
    + unfold Dict.contains. now rewrite HbA.
    + apply contains_In_keys. destruct Hwf as (_ & Hc & _). apply Hc.
      eapply get_In_keys; eauto.
  - unfold view_bytes. cbn [view_of]. now rewrite HbB', HbB.
Qed.

(** ** The string elements *)

Lemma last_char_None (name : string) :
  last_char name = None <-> name = EmptyString.
Proof.
  split; [|now intros ->].
  induction name as [|c rest IH]; [reflexivity|].
  cbn [last_char]. destruct rest; [discriminate|].
  intro H. now specialize (IH H).
Qed.

Lemma In_get_NoDup {V} (k : string) (v : V) (d : Dict.t V) :
  NoDup (Dict.keys d) -> In (k, v) d -> Dict.get k d = Some v.
Proof.
  induction d as [|[k' v'] d IH]; simpl; [tauto|].
  intros Hnd [H|H]; inversion Hnd as [|? ? Hnin Hnd']; subst.
  - injection H as -> ->. now rewrite String.eqb_refl.
  - destruct (String.eqb_spec k k') as [->|_]; [|now apply IH].
    exfalso. apply Hnin. apply (in_map fst) in H. exact H.
Qed.

Lemma firstn_cap {A} (l : list A) (n : nat) :
  firstn (Nat.min n (List.length l)) l = firstn n l.
Proof.
  destruct (Nat.le_gt_cases n (List.length l)) as [H|H].
  - now rewrite Nat.min_l.
  - rewrite Nat.min_r, firstn_all, firstn_all2 by lia. reflexivity.
Qed.

Lemma chunks_concat {A} (l : list A) (n : nat) :
  List.concat (map (fun j => firstn 3 (skipn (3 * j) l)) (seq 0 n))
  = firstn (3 * n) l.
Proof.
  induction n as [|n IH]; [reflexivity|].
  rewrite seq_S, map_app, concat_app, IH. cbn [map List.concat Nat.add].
  rewrite app_nil_r.
  rewrite <- (firstn_skipn (3 * n) (firstn (3 * S n) l)).
  rewrite firstn_firstn, Nat.min_l by lia. f_equal.
  rewrite <- (firstn_cap (skipn (3 * n) l)), length_skipn.
  rewrite skipn_firstn_comm.
  rewrite <- (firstn_cap (skipn (3 * n) l) (3 * S n - 3 * n)), length_skipn.
  f_equal. lia.
Qed.

Lemma string_views_bytes (s : Arrays) (name : string) (buf : list byte) :
  Dict.get name (_buffers s) = Some buf ->
  let len := Z.of_nat (List.length buf) in
  let views := map (fun i => window name len i (i + 3))
                 (range3 (List.length buf)) in
  List.concat (map (view_bytes s) views) = buf
  /\ Forall (fun v => view_of v = name
                      /\ 0 <= view_stop v - view_start v <= 3) views.
Proof.
  intros Hbuf len views. subst views. unfold range3.
  pose proof (Nat.div_mod_eq (List.length buf + 2) 3) as Hdm.
  pose proof (Nat.mod_upper_bound (List.length buf + 2) 3 ltac:(lia)) as Hmod.
  set (n := ((List.length buf + 2) / 3)%nat) in *.
  rewrite !map_map. split.
  - transitivity (firstn (3 * n) buf); [|apply firstn_all2; lia].
    rewrite <- chunks_concat. f_equal. apply map_ext_in.
    intros j Hj. apply in_seq in Hj.
    unfold view_bytes, window. cbn [view_of view_start view_stop].
    rewrite Hbuf. unfold slice_bound. subst len.
    destruct (Z.ltb_spec (3 * Z.of_nat j) 0); [lia|].
    destruct (Z.ltb_spec (3 * Z.of_nat j + 3) 0); [lia|].
    replace (Z.to_nat (Z.min (3 * Z.of_nat j) (Z.of_nat (List.length buf))))
      with (3 * j)%nat by lia.
    rewrite <- (firstn_cap (skipn (3 * j) buf) 3), length_skipn.
    f_equal. lia.
  - apply Forall_forall. intros v Hv. apply in_map_iff in Hv as (j & <- & Hj).
    unfold window. cbn [view_of view_start view_stop]. split; [reflexivity|].
    unfold slice_bound. subst len.
    destruct (Z.ltb_spec (3 * Z.of_nat j) 0);
      destruct (Z.ltb_spec (3 * Z.of_nat j + 3) 0); lia.
Qed.

Lemma get_strings_loop_cover (s : Arrays) (items : Dict.t (list byte)) :
  (forall k v, In (k, v) items -> Dict.get k (_buffers s) = Some v) ->
  Forall (fun e => fst e <> EmptyString) items ->
  exists views,
    get_strings_loop items = Ok views
    /\ List.concat (map (view_bytes s) views)
       = List.concat
           (map snd (filter (fun e => is_string_name (fst e)) items))
    /\ Forall (fun v => is_string_name (view_of v) = true
                        /\ 0 <= view_stop v - view_start v <= 3) views.
Proof.
  intros Hget Hnames. induction Hnames as [|[name buf] items Hname _ IH].
  - exists []. repeat split. constructor.
  - destruct IH as (rest & Hrest & Hbytes & Hall).
    { intros k v Hin. apply Hget. now right. }
    cbn [fst] in Hname. cbn [get_strings_loop filter fst].
    unfold is_string_name at 1.
    destruct (last_char name) as [sigil|] eqn:Hlast;
      [|now apply last_char_None in Hlast].
    rewrite Hrest. cbn [and_then].
    destruct (Ascii.eqb sigil "$") eqn:Hsigil.
    + destruct (string_views_bytes s name buf (Hget _ _ (or_introl eq_refl)))
        as (Hcat & Hviews).
      eexists. split; [reflexivity|].
      rewrite map_app, concat_app, Hcat, Hbytes. split; [reflexivity|].
      apply Forall_app. split; [|exact Hall].
      eapply Forall_impl; [|exact Hviews]. cbn beta. intros v [-> Hw].
      split; [|exact Hw]. unfold is_string_name. now rewrite Hlast.
    + exists rest. cbn [app]. auto.
Qed.

Lemma get_strings_loop_empty_name (items : Dict.t (list byte)) :
  Exists (fun e => fst e = EmptyString) items ->
  get_strings_loop items = Raise IndexError.
Proof.
  induction items as [|[name buf] items IH]; intro H;
    [now apply Exists_nil in H|].
  cbn [get_strings_loop].
  destruct (last_char name) as [sigil|] eqn:Hlast; [|reflexivity].
  apply Exists_cons in H as [H|H].
  - cbn [fst] in H. subst name. discriminate.
  - now rewrite (IH H).
Qed.

(** X19: for a buffer dictionary that holds every name once, in whatever
    order it lists them, and in which no name is empty, [get_strings]
    returns views on the buffers of the arrays whose name ends in [$] and
    on no other: each view is at most 3 bytes wide, and their bytes in
    order are the buffers of the string arrays laid end to end in the
    order of the dictionary, every byte once. With an empty name in the
    table it raises IndexError. *)
Theorem get_strings_cover (s : Arrays) :
  NoDup (Dict.keys (_buffers s)) ->
  (Forall (fun e => fst e <> EmptyString) (_buffers s) ->
   exists views,
     get_strings s = Ok views
     /\ List.concat (map (view_bytes s) views)
        = List.concat
            (map snd (filter (fun e => is_string_name (fst e)) (_buffers s)))
     /\ Forall (fun v => is_string_name (view_of v) = true
                         /\ 0 <= view_stop v - view_start v <= 3) views)
  /\ (Exists (fun e => fst e = EmptyString) (_buffers s) ->
      get_strings s = Raise IndexError).
Proof.
  intro Hnd. split.
  - intro Hnames. apply get_strings_loop_cover; [|exact Hnames].
    intros k v Hin. now apply In_get_NoDup.
  - apply get_strings_loop_empty_name.
Qed.

(** ** Any order of iteration

    A relisting of a table has the same entry under every key, so what the
    methods look up by name is what it is in the listing by address. *)

Lemma get_In {V} (k : string) (v : V) (d : Dict.t V) :
  Dict.get k d = Some v -> In (k, v) d.
Proof.
  induction d as [|[k' v'] d IH]; simpl; [discriminate|].
  destruct (String.eqb_spec k k') as [->|_]; intro H.
  - injection H as ->. now left.
  - right. now apply IH.
Qed.

Lemma NoDup_keys_Permutation {V} (l l' : Dict.t V) :
  Permutation l l' -> NoDup (Dict.keys l) -> NoDup (Dict.keys l').
Proof.
  intro Hp. apply Permutation_NoDup. unfold Dict.keys.
  now apply Permutation_map.
Qed.

Lemma get_Permutation {V} (k : string) (l l' : Dict.t V) :
  NoDup (Dict.keys l) -> Permutation l l' -> Dict.get k l' = Dict.get k l.
Proof.
  intros Hnd Hp. destruct (Dict.get k l) as [v|] eqn:E.
  - apply In_get_NoDup; [now apply (NoDup_keys_Permutation l)|].
    eapply Permutation_in; [exact Hp|]. now apply get_In.
  - apply get_None_keys. apply get_None_keys in E. intro H. apply E.
    unfold Dict.keys in *. eapply Permutation_in; [|exact H].
    apply Permutation_map, Permutation_sym, Hp.
Qed.

Lemma relisted_get (s0 s : Arrays) :
  wf s0 -> relisted s0 s ->
  NoDup (Dict.keys (_array_memory s))
  /\ (forall k, Dict.get k (_dims s) = Dict.get k (_dims s0))
  /\ (forall k, Dict.get k (_buffers s) = Dict.get k (_buffers s0))
  /\ (forall k, Dict.get k (_array_memory s)
                 = Dict.get k (_array_memory s0))
  /\ (forall k, Dict.contains k (_dims s0) = true ->
                 Dict.contains k (_cache s) = true).
Proof.
  intros Hwf (Hpd & Hpb & Hpc & Hpm & _ & _).
  pose proof (wf_layout s0 Hwf) as [_ Hl].
  pose proof (layout_keys _ _ _ _ _ _ Hl) as [Hkb Hkm].
  pose proof (proj1 Hwf) as Hnd.
  assert (Hndb : NoDup (Dict.keys (_buffers s0))) by now rewrite Hkb.
  assert (Hndm : NoDup (Dict.keys (_array_memory s0))) by now rewrite Hkm.
  split; [now apply (NoDup_keys_Permutation (_array_memory s0))|].
  split; [intro k; now apply get_Permutation|].
  split; [intro k; now apply get_Permutation|].
  split; [intro k; now apply get_Permutation|].
  intros k Hk. apply contains_In_keys. apply contains_In_keys in Hk.
  destruct Hwf as (_ & Hc & _). apply Hc in Hk.
  unfold Dict.keys in *. eapply Permutation_in; [|exact Hk].
  now apply Permutation_map.
Qed.

Lemma dereference_loop_bound (vc address bound : Z) (items : Dict.t (Z * Z)) :
  Forall (fun e => vc + snd (snd e) < bound \/ address < vc + snd (snd e))
    items ->
  forall found_addr found_name name,
    found_addr < bound ->
    fst (fst (dereference_loop vc address items found_addr found_name name))
    < bound.
Proof.
  induction 1 as [|[n [h a]] items He _ IH];
    intros found_addr found_name name Hlt; [exact Hlt|].
  cbn [dereference_loop snd] in *.
  destruct (Z.ltb_spec found_addr (vc + a)) as [_|_]; cbn [andb];
    [|now apply IH].
  destruct (Z.leb_spec (vc + a) address) as [Hle|_]; apply IH; lia.
Qed.

(** X10: for a well-formed table in whatever order the dictionaries list
    it, with the arena at a non-negative address, and for the array whose
    key the address dictionary iterates over last, if its name is not
    empty: [dereference] of the address [varptr] gives for a legal index
    hands to [values.from_bytes] the bytes of that element's view. *)
Theorem dereference_of_last_key (mem : Memory) (name : string)
  (idx d : list Z) (h a : Z) (ms : Dict.t (Z * Z)) (s0 s : Arrays) :
  wf s0 ->
  relisted s0 s ->
  0 <= var_current mem ->
  _array_memory s = ms ++ [(name, (h, a))] ->
  name <> EmptyString ->
  Dict.get name (_dims s) = Some d ->
  legal_index (resolved_base s) idx d ->
  exists address view,
    varptr mem name idx s = Ok address
    /\ view_buffer mem name idx s = (s, Ok view)
    /\ dereference mem address s = Ok (Some (view_bytes s view)).
Proof.
  intros Hwf Hrel Hvc Hms Hname Hd Hidx.
  destruct (relisted_get s0 s Hwf Hrel) as (Hndm & Hgd & Hgb & Hgm & _).
  assert (Hbase : _base s = _base s0) by apply Hrel.
  pose proof (wf_layout s0 Hwf) as [Hb01 Hl].
  assert (Hres : resolved_base s = resolved_base s0)
    by (unfold resolved_base; now rewrite Hbase).
  rewrite Hres in Hidx.
  rewrite Hgd in Hd.
  pose proof (wf_declared_base s0 name d Hwf Hd) as Hb.
  rewrite <- Hbase in Hb.
  set (b := resolved_base s0) in *.
  destruct (layout_get_dims _ _ _ _ _ _ _ _ Hl Hd) as (h0 & buf & Hm & Hbuf).
  destruct (layout_descriptor _ _ _ _ _ _ _ _ _ _ _ Hl Hd Hm Hbuf)
    as (Hh0 & _ & _ & _ & Hlen).
  assert (Hnin : ~ In name (Dict.keys ms)).
  { rewrite Hms in Hndm. unfold Dict.keys in *. rewrite map_app in Hndm.
    cbn [map fst] in Hndm. apply NoDup_remove_2 in Hndm.
    now rewrite app_nil_r in Hndm. }
  assert (Hm' : Dict.get name (_array_memory s) = Some (h, a))
    by (rewrite Hms; now apply get_app_last).
  rewrite Hgm, Hm in Hm'. injection Hm' as <- <-.
  pose proof (record_len_pos name d) as Hrl.
  set (a := h0 + record_len name d) in *.
  pose proof (size_bytes_pos name) as Hsz.
  rewrite <- Hgd in Hd. rewrite <- Hgb in Hbuf.
  destruct (view_buffer_legal mem name idx d s b buf Hb ltac:(lia) Hd Hbuf
              Hlen Hidx) as (k & Hk & Hrange & Hview).
  rewrite Hgd in Hd. rewrite Hgb in Hbuf.
  exists (var_current mem + a + size_bytes name * k),
    (mkView name (k * size_bytes name) ((k + 1) * size_bytes name)).
  split; [|split; [exact Hview|]].
  - unfold varptr, Dict.lookup. rewrite Hgd, Hd, Hgm, Hm. cbn [and_then snd].
    rewrite Hb, Hk. reflexivity.
  - assert (Hall : Forall (fun e =>
                     var_current mem + snd (snd e) < var_current mem + a
                     \/ var_current mem + a + size_bytes name * k
                        < var_current mem + snd (snd e)) ms).
    { apply Forall_forall. intros [n [h' a']] Hin. cbn [snd].
      assert (Hne : n <> name).
      { intros ->. apply Hnin. apply (in_map fst) in Hin. exact Hin. }
      assert (Hn : Dict.get n (_array_memory s0) = Some (h', a')).
      { rewrite <- Hgm. apply In_get_NoDup; [exact Hndm|].
        rewrite Hms. apply in_or_app. now left. }
      destruct (layout_get_memory _ _ _ _ _ _ _ _ _ Hl Hn)
        as (d' & buf' & Hd' & Hbuf').
      destruct (layout_descriptor _ _ _ _ _ _ _ _ _ _ _ Hl Hd' Hn Hbuf')
        as (_ & Ha' & _).
      pose proof (record_len_pos n d').
      destruct (layout_disjoint _ _ _ _ _ _ _ _ _ _ _ _ _ _ _ _ Hl Hne
                  Hd' Hn Hbuf' Hd Hm Hbuf); nia. }
    unfold dereference. rewrite Hms, dereference_loop_app.
    assert (Hfa : fst (fst (dereference_loop (var_current mem)
                              (var_current mem + a + size_bytes name * k)
                              ms (-1) None None))
                  < var_current mem + a).
    { apply dereference_loop_bound; [exact Hall|lia]. }
    destruct (dereference_loop _ _ ms (-1) None None) as [[fa fn] n].
    cbn [fst] in Hfa. cbn [dereference_loop snd].
    destruct (Z.ltb_spec fa (var_current mem + a)) as [_|Hge]; [|lia].
    destruct (Z.leb_spec (var_current mem + a)
                (var_current mem + a + size_bytes name * k)) as [_|Hgt];
      [|nia].
    cbn [andb]. destruct name as [|c rest]; [congruence|].
    unfold Dict.lookup, view_bytes. cbn [view_of view_start view_stop].
    rewrite Hgb, Hbuf. cbn [and_then]. do 2 f_equal.
    rewrite slice_inside by nia. f_equal; [f_equal; lia|f_equal; f_equal; lia].
Qed.

(** X7: [erase] keeps the arrays that remain in their order in the arena,
    whatever the order in which the dictionaries list them: for a
    well-formed table, a declared name and two other arrays, the first
    with its header below the second's, [erase] of the name succeeds and
    leaves the first header below the second, at or above address 0, and
    each array's data as far above its header as it was. *)
Theorem erase_keeps_address_order (name n1 n2 : string) (h1 a1 h2 a2 : Z)
  (s0 s : Arrays) :
  wf s0 ->
  relisted s0 s ->
  Dict.contains name (_dims s) = true ->
  n1 <> name ->
  n2 <> name ->
  Dict.get n1 (_array_memory s) = Some (h1, a1) ->
  Dict.get n2 (_array_memory s) = Some (h2, a2) ->
  h1 < h2 ->
  exists s' h1' a1' h2' a2',
    erase name s = (s', Ok tt)
    /\ Dict.get n1 (_array_memory s') = Some (h1', a1')
    /\ Dict.get n2 (_array_memory s') = Some (h2', a2')
    /\ 0 <= h1' < h2'
    /\ a1' - h1' = a1 - h1
    /\ a2' - h2' = a2 - h2.
Proof.
  intros Hwf Hrel Hc Hne1 Hne2 Hm1 Hm2 Hlt.
  destruct (relisted_get s0 s Hwf Hrel) as (_ & Hgd & Hgb & Hgm & Hgc).
  assert (Hbase : _base s = _base s0) by apply Hrel.
  pose proof (wf_layout s0 Hwf) as [_ Hl].
  unfold Dict.contains in Hc. rewrite Hgd in Hc.
  destruct (Dict.get name (_dims s0)) as [d|] eqn:Hd; [clear Hc|discriminate].
  pose proof (wf_declared_base s0 name d Hwf Hd) as Hb.
  set (b := resolved_base s0) in *.
  destruct (layout_get_dims _ _ _ _ _ _ _ _ Hl Hd) as (h & buf & Hm & Hbuf).
  destruct (layout_descriptor _ _ _ _ _ _ _ _ _ _ _ Hl Hd Hm Hbuf)
    as (Hh & _ & _ & _ & Hlen).
  pose proof (record_len_pos name d) as Hrl.
  rewrite Hgm in Hm1, Hm2.
  destruct (layout_get_memory _ _ _ _ _ _ _ _ _ Hl Hm1)
    as (d1 & buf1 & Hd1 & Hbuf1).
  destruct (layout_get_memory _ _ _ _ _ _ _ _ _ Hl Hm2)
    as (d2 & buf2 & Hd2 & Hbuf2).
  destruct (layout_descriptor _ _ _ _ _ _ _ _ _ _ _ Hl Hd1 Hm1 Hbuf1)
    as (Hh1 & Ha1 & _).
  destruct (layout_descriptor _ _ _ _ _ _ _ _ _ _ _ Hl Hd2 Hm2 Hbuf2)
    as (Hh2 & Ha2 & _).
  pose proof (record_len_pos n1 d1). pose proof (record_len_pos n2 d2).
  pose proof (layout_disjoint _ _ _ _ _ _ _ _ _ _ _ _ _ _ _ _ Hl Hne1
                Hd1 Hm1 Hbuf1 Hd Hm Hbuf) as Hdis1.
  pose proof (layout_disjoint _ _ _ _ _ _ _ _ _ _ _ _ _ _ _ _ Hl Hne2
                Hd2 Hm2 Hbuf2 Hd Hm Hbuf) as Hdis2.
  assert (He : erase name s
               = (erased b name d h s, Ok tt)).
  { apply (erase_spec name s b d (h, h + record_len name d)).
    - now rewrite Hbase.
    - now rewrite Hgd.
    - now rewrite Hgm.
    - unfold Dict.contains. now rewrite Hgb, Hbuf.
    - apply Hgc. unfold Dict.contains. now rewrite Hd. }
  rewrite He.
  set (freed := Z.of_nat (List.length buf) + record_len name d).
  exists (erased b name d h s),
    (if h <? h1 then h1 - freed else h1),
    (if h <? h1 then a1 - freed else a1),
    (if h <? h2 then h2 - freed else h2),
    (if h <? h2 then a2 - freed else a2).
  split; [reflexivity|].
  unfold erased, freed_bytes. cbn [_array_memory]. rewrite <- Hlen.
  fold freed. rewrite !get_compact, !get_remove_neq by congruence.
  rewrite !Hgm, Hm1, Hm2.
  destruct (Z.ltb_spec h h1), (Z.ltb_spec h h2);
    (split; [reflexivity|split; [reflexivity|lia]]).
Qed.

(** ** Conversion to Python lists *)

Lemma for_each_pure {A B} (f : A -> M B) (g : A -> B) (l : list A)
  (s : Arrays) :
  (forall x, In x l -> f x s = (s, Ok (g x))) ->
  for_each f l s = (s, Ok (map g l)).
Proof.
  induction l as [|x l IH]; intro H; [reflexivity|].
  cbn [for_each map]. unfold bind at 1. rewrite (H x (or_introl eq_refl)).
  unfold bind at 1. rewrite IH by (intros y Hy; apply H; now right).
  reflexivity.
Qed.

Lemma in_xrange (n x : Z) : In x (xrange n) -> 0 <= x < n.
Proof.
  unfold xrange. intro H. apply in_map_iff in H as (j & <- & Hj).
  apply in_seq in Hj. lia.
Qed.

Lemma xrange_length (n : Z) : List.length (xrange n) = Z.to_nat n.
Proof. unfold xrange. now rewrite length_map, length_seq. Qed.

Lemma _to_list_cons (mem : Memory) (name : string) (index : list Z)
  (d r : Z) (rest : list Z) :
  _to_list mem name index (d :: r :: rest) =
  for_each (fun i =>
              bind (gets _base) (fun b =>
              bind (_to_list mem name (index ++ [i + base_or_0 b]) (r :: rest))
                (fun l => ret (PyList l))))
    (xrange d).
Proof. reflexivity. Qed.

Lemma grid_cons (name : string) (b size : Z) (dims index : list Z) (d r : Z)
  (rest : list Z) :
  grid name b size dims index (d :: r :: rest) =
  map (fun i => PyList (grid name b size dims (index ++ [i + b]) (r :: rest)))
    (xrange d).
Proof. reflexivity. Qed.

Lemma _to_list_grid (mem : Memory) (name : string) (dims : list Z)
  (buf : list byte) (s : Arrays) :
  wf s ->
  Dict.get name (_dims s) = Some dims ->
  Dict.get name (_buffers s) = Some buf ->
  forall remaining done index,
    dims = done ++ remaining ->
    legal_index (resolved_base s) index done ->
    _to_list mem name index remaining s
    = (s, Ok (grid name (resolved_base s) (size_bytes name) dims index
                remaining)).
Proof.
  intros Hwf Hd Hbuf. pose proof (wf_layout s Hwf) as [Hb01 _].
  induction remaining as [|d rest IH]; intros done index Hdims Hidx;
    [reflexivity|].
  assert (Hstep : forall x, In x (xrange d) ->
            legal_index (resolved_base s) (index ++ [x + resolved_base s])
              (done ++ [d])).
  { intros x Hx. apply in_xrange in Hx. apply Forall2_app; [exact Hidx|].
    constructor; [lia|constructor]. }
  destruct rest as [|r rest]; [cbn [_to_list grid]|].
  - apply for_each_pure. intros x Hx.
    unfold bind, gets, ret, get.
    change (base_or_0 (_base s)) with (resolved_base s).
    destruct (view_buffer_flat mem name (index ++ [x + resolved_base s]) dims
                s buf Hwf Hd Hbuf) as (-> & _); [|reflexivity].
    rewrite Hdims. now apply Hstep.
  - rewrite _to_list_cons, grid_cons.
    apply for_each_pure. intros x Hx.
    unfold bind at 1, gets.
    change (base_or_0 (_base s)) with (resolved_base s).
    unfold bind, ret.
    rewrite (IH (done ++ [d]) (index ++ [x + resolved_base s]));
      [reflexivity| |now apply Hstep].
    rewrite Hdims, <- app_assoc. reflexivity.
Qed.

(** X20: in a well-formed state [to_list] does not raise and does not
    change the state. For a declared array it returns the nested list of
    the views of its elements that has, along each axis of dimension d, the
    d items with the indices base, base + 1, ..., base + d - 1, so with
    base 0 the elements whose index on some axis is the maximum d are not
    in it; the outer list has as many items as the first dimension. For an
    undeclared name it returns the empty list. *)
Theorem to_list_reads_from_base (mem : Memory) (name : string) (s : Arrays) :
  wf s ->
  exists items,
    to_list mem name s = (s, Ok items)
    /\ match Dict.get name (_dims s) with
       | Some d =>
           items = grid name (resolved_base s) (size_bytes name) d [] d
           /\ List.length items = Z.to_nat (hd 0 d)
       | None => items = []
       end.
Proof.
  intro Hwf. unfold to_list, bind, gets.
  destruct (Dict.get name (_dims s)) as [d|] eqn:Hd.
  - pose proof (wf_layout s Hwf) as [_ Hl].
    destruct (layout_get_dims _ _ _ _ _ _ _ _ Hl Hd) as (h & buf & _ & Hbuf).
    eexists. split.
    + apply (_to_list_grid mem name d buf s Hwf Hd Hbuf d [] []);
        [reflexivity|constructor].
    + split; [reflexivity|].
      destruct d as [|d0 [|d1 rest]]; cbn [grid hd];
        [reflexivity|now rewrite length_map, xrange_length..].
  - exists []. now split.
Qed.

(** ** The header when the arena starts at address 0 *)

(** X22: in a well-formed state with the arena at address 0, [get_memory]
    of an address in the header of an array returns, for the first
    [max(3, len(name)) + 1] offsets, what [get_name_in_memory] gives for the
    name and the offset, and past them the byte at the remaining offset of
    the record made of the little-endian word [size + 1 + 2 * n], the byte
    [n] and one little-endian word [d + 1 - base] per dimension, [n] the
    number of dimensions and [size] the length of the buffer, when these
    numbers fit their fields. *)
Theorem get_memory_header_record (mem : Memory) (s : Arrays) (name : string)
  (d : list Z) (h a : Z) (buf : list byte) (address : Z) :
  wf s ->
  var_current mem = 0 ->
  descriptor s name d h a buf ->
  h <= address < a ->
  let b := resolved_base s in
  let n := Z.of_nat (List.length d) in
  let total := Z.of_nat (List.length buf) + 1 + 2 * n in
  let name_len := Z.max 3 (Z.of_nat (String.length name)) + 1 in
  let record :=
    [byte_of_Z total; byte_of_Z (total / 256); byte_of_Z n]
    ++ List.concat (map (fun x => [byte_of_Z (x + 1 - b);
                                   byte_of_Z ((x + 1 - b) / 256)]) d) in
  (address - h < name_len ->
   get_memory mem address s = get_name_in_memory name (address - h))
  /\ (name_len <= address - h ->
      Forall (fun x => x + 1 - b <= 65535) d -> total <= 65535 -> n <= 255 ->
      exists x,
        nth_error record (Z.to_nat (address - h - name_len)) = Some x
        /\ get_memory mem address s = Ok (Z_of_byte x)).
Proof.
  intros Hwf Hvc Hdesc Ha b n total name_len record.
  pose proof Hdesc as (Hd & Hm & Hbuf).
  pose proof (wf_layout s Hwf) as [_ Hl].
  destruct (layout_descriptor _ _ _ _ _ _ _ _ _ _ _ Hl Hd Hm Hbuf)
    as (_ & Hrec & _ & Hge & Hlen).
  pose proof (wf_declared_base s name d Hwf Hd) as Hb. fold b in Hb, Hge, Hlen.
  split.
  - intro Hname. unfold get_memory.
    rewrite (get_memory_loop_owner _ _ _ address _ _ _ name d h a buf Hl Hd Hm
               Hbuf) by lia.
    rewrite Hvc. destruct (Z.leb_spec (0 + a) address) as [Hle|_]; [lia|].
    replace (address - h - 0) with (address - h) by lia. fold name_len.
    destruct (Z.ltb_spec (address - h) name_len) as [_|Hge']; [|lia].
    reflexivity.
  - intros Hpast Hfit Htotal Hn.
    rewrite (get_memory_header_arena_at_zero mem s name d h a buf address Hwf
               Hvc Hdesc) by (fold name_len; lia).
    fold name_len.
    rewrite (data_rep_fit s name d b Hb Hd).
    + cbv zeta. rewrite <- Hlen. fold n. fold total. fold record.
      cbn [and_then].
      assert (Hrecord : Z.of_nat (List.length record) = 3 + 2 * n).
      { subst record. rewrite length_app. cbn [List.length].
        rewrite Nat2Z.inj_add. f_equal.
        clear. subst n. induction d as [|x d IH]; [reflexivity|].
        cbn [map List.concat List.length app]. lia. }
      unfold record_len in Hrec. fold n in Hrec.
      destruct (nth_error record (Z.to_nat (address - h - name_len)))
        as [x|] eqn:Hx.
      2:{ apply nth_error_None in Hx. lia. }
      exists x. split; [reflexivity|]. unfold item.
      destruct (Z.ltb_spec (address - h - name_len) 0) as [Hneg|_]; [lia|].
      destruct (Z.ltb_spec (address - h - name_len) 0) as [Hneg|_]; [lia|].
      destruct (Z.leb_spec (Z.of_nat (List.length record))
                  (address - h - name_len)) as [Hbig|_]; [lia|].
      cbn [orb]. now rewrite Hx.
    + apply Forall_forall. intros x Hx.
      pose proof (proj1 (Forall_forall _ _) Hge x Hx) as H1.
      pose proof (proj1 (Forall_forall _ _) Hfit x Hx) as H2.
      cbn beta in H1, H2. lia.
    + cbv zeta. rewrite <- Hlen. fold n. fold total. lia.
    + exact Hn.
Qed.

End Properties.

(** * Scenarios *)

Local Open Scope string_scope.
Local Open Scope Z_scope.

Section Scenarios.

Variable nim : string -> Z -> result Z.

(** C2: with [A%] and [B%] declared and [A%(0)], [B%(0)] holding the bytes
    [x; y] and [z; w], the address [varptr] gives for [A%(0)] is 4729, the
    element's view shows [x; y], and [dereference] of that address hands
    [z; w], the bytes of [B%], to [values.from_bytes]: after its loop it
    reads the buffer of the last name visited, not of the name it found.
    When the dictionaries iterate over [B%] first, the address of [B%(0)]
    dereferences to the bytes of [A%]. *)
Theorem dereference_reads_last_buffer (x y z w : byte) :
  let s := two_arrays nim [x; y] [z; w] in
  let s' := two_arrays_B_first nim [x; y] [z; w] in
  fst (@set (session nim) pc_memory "B%" [0] [z; w]
         (fst (@set (session nim) pc_memory "A%" [0] [x; y] (dim_A_B nim))))
  = s
  /\ varptr pc_memory "A%" [0] s = Ok 4729
  /\ view_buffer pc_memory "A%" [0] s = (s, Ok (mkView "A%" 0 2))
  /\ view_bytes s (mkView "A%" 0 2) = [x; y]
  /\ dereference pc_memory 4729 s = Ok (Some [z; w])
  /\ varptr pc_memory "B%" [0] s' = Ok 4746
  /\ view_bytes s' (mkView "B%" 0 2) = [z; w]
  /\ dereference pc_memory 4746 s' = Ok (Some [x; y]).
Proof. repeat split; vm_compute; reflexivity. Qed.

(** C5: in the same state, with the arena at address 4720, the byte at the
    address of [A%(0)] is [x], but [get_memory] of that address compares
    the arena-relative header address 17 of [B%] with the absolute address
    4729, takes [B%] for the owner and returns a byte of the name of [B%]
    at the negative offset -8. With the arena at address 0 the relative and
    absolute addresses agree and the byte of [A%] is returned. *)
Theorem get_memory_data_wrong_owner (x y z w : byte) :
  let s := two_arrays nim [x; y] [z; w] in
  varptr pc_memory "A%" [0] s = Ok 4729
  /\ view_bytes s (mkView "A%" 0 2) = [x; y]
  /\ get_memory pc_memory 4729 s = nim "B%" (-8)
  /\ get_memory (mkMemory (check_free pc_memory) 0) 9 s = Ok (Z_of_byte x).
Proof. repeat split; vm_compute; reflexivity. Qed.

(** C6: [A%(1, 3)] and [A%(3, 1)] take the same room, and byte 3 of the
    header record, the low byte of the first dimension's length, is 2 for
    the one and 4 for the other. With the arena at address 4720 and [B%]
    declared after [A%], [get_memory] at offset 7 of the header of [A%]
    returns in both states the same byte of the name of [B%] at offset
    -20: it takes [B%] for the owner, the relative header address 27 of
    [B%] being below the absolute address 4727. With the arena at address
    0 it returns the bytes of the record. *)
Theorem get_memory_header_wrong_owner :
  let s13 := dim_A2_B nim 1 3 in
  let s31 := dim_A2_B nim 3 1 in
  data_rep "A%" s13 = Ok [x15; x00; x02; x02; x00; x04; x00]
  /\ data_rep "A%" s31 = Ok [x15; x00; x02; x04; x00; x02; x00]
  /\ Dict.get "A%" (_array_memory s13) = Some (0, 11)
  /\ Dict.get "A%" (_array_memory s31) = Some (0, 11)
  /\ get_memory pc_memory (4720 + 7) s13 = nim "B%" (-20)
  /\ get_memory pc_memory (4720 + 7) s31 = nim "B%" (-20)
  /\ get_memory (mkMemory (check_free pc_memory) 0) 7 s13 = Ok 2
  /\ get_memory (mkMemory (check_free pc_memory) 0) 7 s31 = Ok 4.
Proof. repeat split; vm_compute; reflexivity. Qed.

End Scenarios.

Lemma wf_dim_A_B : wf (dim_A_B no_names).
Proof. apply wf_run, wf_init. Qed.

Lemma erase_compaction_witness :
  exists len s',
    array_len (Some 0) [3] = Ok len
    /\ erase "A%" (dim_A_B no_names) = (s', Ok tt)
    /\ descriptor s' "B%" [2] (17 - (9 + len * 2)) (26 - (9 + len * 2))
         (repeat x00 6)
    /\ current s' = 32 - (9 + len * 2)
    /\ Dict.get "B%" (_cache s') = Some None
    /\ (forall name h a,
          name <> "A%"%string ->
          Dict.get name (_array_memory (dim_A_B no_names)) = Some (h, a) ->
          h <= 0 ->
          Dict.get name (_array_memory s') = Some (h, a)).
Proof.
  apply (@erase_compaction (session no_names) (dim_A_B no_names) "A%" "B%"
           [3] [2] 0 9 17 26 (repeat x00 8) (repeat x00 6)).
  - exact wf_dim_A_B.
  - repeat split.
  - repeat split.
  - lia.
Defined.

Lemma set_get_round_trip_witness :
  exists s1 view,
    @set (session no_names) pc_memory "A%" [2] [x01; x02] (dim_A_B no_names)
    = (s1, Ok tt)
    /\ get pc_memory "A%" [2] s1 = (s1, Ok view)
    /\ view_bytes s1 view = [x01; x02].
Proof.
  apply (@set_get_round_trip (session no_names) pc_memory pc_memory "A%"
           [2] [3] [x01; x02] "%"%char [x01; x02] (dim_A_B no_names)).
  - exact wf_dim_A_B.
  - reflexivity.
  - repeat constructor; vm_compute; discriminate.
  - reflexivity.
  - reflexivity.
Defined.

Lemma check_dim_auto_dimension_witness :
  let s' := fst (@check_dim (session no_names) pc_memory "X!" [2; 2] init) in
  Dict.get "X!" (_dims s') = Some [10; 10]
  /\ Dict.get "X!" (_buffers s') = Some (repeat x00 484)
  /\ _base s' = Some 0
  /\ (forall mem' dimensions,
        dim mem' "X!" dimensions s'
        = (s', Raise (RunError DUPLICATE_DEFINITION))).
Proof.
  refine (proj1 (@check_dim_auto_dimension (session no_names) pc_memory "X!"
                   [2; 2] init _ _) _).
  - reflexivity.
  - left; reflexivity.
  - reflexivity.
Defined.

(** C9 as stated fails when the budget check rejects the request: an access
    to the undeclared [X!] with five indices asks for 11^5 elements of 4
    bytes, the memory object refuses, [check_dim] raises OUT_OF_MEMORY and
    the name stays undeclared. *)
Lemma auto_dimension_out_of_memory :
  snd (@check_dim (session no_names) pc_memory "X!" [2; 2; 2; 2; 2] init)
  = Raise (RunError OUT_OF_MEMORY)
  /\ Dict.get "X!"
       (_dims (fst (@check_dim (session no_names) pc_memory "X!"
                      [2; 2; 2; 2; 2] init)))
     <> Some [10; 10; 10; 10; 10].
Proof. split; vm_compute; [reflexivity|discriminate]. Qed.

Lemma dim_raises_before_mutation_witness :
  let s := dim_A_B no_names in
  let e := RunError DUPLICATE_DEFINITION in
  (_dims s = _dims s /\ _buffers s = _buffers s /\ _cache s = _cache s
   /\ _array_memory s = _array_memory s /\ current s = current s)
  /\ (_base s = _base s \/ (_base s = None /\ _base s = Some 0))
  /\ ((e = RunError DUPLICATE_DEFINITION
       /\ Dict.contains "A%" (_dims s) = true)
      \/ (e = RunError IFC /\ Exists (fun d => d < 0) [5])
      \/ (e = RunError SUBSCRIPT_OUT_OF_RANGE
          /\ Exists (fun d => d < resolved_base s) [5])
      \/ (e = RunError OUT_OF_MEMORY
          /\ check_free pc_memory
               (record_len "A%" [5]
                + axes_product (resolved_base s) [5]
                  * @size_bytes (session no_names) "A%")
             = false)).
Proof.
  apply (@dim_raises_before_mutation (session no_names) pc_memory "A%" [5]
           (dim_A_B no_names) (dim_A_B no_names)
           (RunError DUPLICATE_DEFINITION)).
  vm_compute; reflexivity.
Defined.

(** C7 as stated fails: after [DIM A%(3)], [DIM B%(2)] the base is 0, and
    it is still 0 after [clear]. *)
Lemma clear_leaves_base_set :
  _base (fst (clear (dim_A_B no_names))) = Some 0
  /\ _base (fst (clear (dim_A_B no_names))) <> None.
Proof. split; [reflexivity|discriminate]. Qed.

(** ** Instances of the further properties *)

(** A dictionary listed in the reverse order. *)
Ltac reversed :=
  match goal with
  | |- Permutation ?l ?l' =>
      change (Permutation l (rev l)); apply Permutation_rev
  end.

Lemma dim_resolves_base_witness :
  let s1 := fst (@dim (session no_names) pc_memory "A%" [3] init) in
  _base s1 = Some 0
  /\ base 0 s1 = (s1, Ok tt)
  /\ base 1 s1 = (s1, Raise (RunError DUPLICATE_DEFINITION)).
Proof.
  apply (@dim_resolves_base (session no_names) pc_memory "A%" [3] init).
  reflexivity.
Defined.

Lemma base_is_final_witness :
  let s' := run [OpErase "A%"; OpBase 1] (dim_A_B no_names) in
  _base s' = Some 0
  /\ base 1 s' =
     (s', if negb ((1 =? 1) || (1 =? 0)) then Raise (RunError STX)
          else if 1 =? 0 then Ok tt
               else Raise (RunError DUPLICATE_DEFINITION)).
Proof.
  apply (@base_is_final (session no_names) [OpErase "A%"; OpBase 1]
           (dim_A_B no_names) 0 1).
  reflexivity.
Defined.

Lemma dimensions_are_fixed_witness :
  dimensions "A%"
    (run [OpDim pc_memory "A%" [7]; OpErase "B%"; OpGet pc_memory "A%" [9]]
       (dim_A_B no_names))
  = Ok [3].
Proof.
  apply (@dimensions_are_fixed (session no_names)).
  - reflexivity.
  - repeat constructor; discriminate.
Defined.

Lemma dim_then_erase_witness :
  let s := dim_A_B no_names in
  let s1 := fst (dim pc_memory "C!" [2; 2] s) in
  exists s2,
    erase "C!" s1 = (s2, Ok tt)
    /\ _dims s2 = _dims s
    /\ _buffers s2 = _buffers s
    /\ _array_memory s2 = _array_memory s
    /\ current s2 = current s
    /\ _base s2 = Some (resolved_base s)
    /\ (forall k, k <> "C!"%string ->
                  Dict.get k (_cache s2) = Dict.get k (_cache s)).
Proof.
  intros s s1.
  apply (@dim_then_erase (session no_names) pc_memory "C!" [2; 2] s s1).
  - exact wf_dim_A_B.
  - vm_compute; reflexivity.
Defined.

Lemma erase_outcome_witness :
  let s := dim_A_B no_names in
  (contains "A%" s = false -> erase "A%" s = (s, Raise (RunError IFC)))
  /\ (contains "A%" s = true ->
      exists s',
        erase "A%" s = (s', Ok tt)
        /\ contains "A%" s' = false
        /\ Dict.contains "A%" (_buffers s') = false
        /\ Dict.contains "A%" (_array_memory s') = false
        /\ wf s').
Proof.
  apply (@erase_outcome (session no_names) "A%" (dim_A_B no_names)).
  exact wf_dim_A_B.
Defined.

Lemma array_size_bytes_is_buffer_length_witness :
  let s := dim_A_B no_names in
  array_size_bytes "A%" s =
  Ok match Dict.get "A%" (_buffers s) with
     | Some buf => Z.of_nat (List.length buf)
     | None => 0
     end.
Proof.
  apply (@array_size_bytes_is_buffer_length (session no_names) "A%"
           (dim_A_B no_names)).
  exact wf_dim_A_B.
Defined.

Lemma get_memory_outside_arena_witness :
  get_memory pc_memory 4752 (dim_A_B no_names) = Ok (-1).
Proof.
  apply (@get_memory_outside_arena (session no_names) pc_memory 4752
           (dim_A_B no_names)).
  - exact wf_dim_A_B.
  - vm_compute; discriminate.
  - right. vm_compute; discriminate.
Defined.

Lemma dereference_below_data_witness :
  dereference pc_memory 4700 (dim_A_B no_names) = Ok None.
Proof.
  apply (@dereference_below_data (session no_names) pc_memory 4700
           (dim_A_B no_names)).
  repeat constructor.
Defined.

Lemma wf_two_arrays : wf (two_arrays no_names [x01; x02] [x03; x04]).
Proof.
  replace (two_arrays no_names [x01; x02] [x03; x04])
    with (@run (session no_names)
            [OpDim pc_memory "A%" [3]; OpDim pc_memory "B%" [2];
             OpSet pc_memory "A%" [0]
               ([x01; x02] : @Value (session no_names));
             OpSet pc_memory "B%" [0]
               ([x03; x04] : @Value (session no_names))] init)
    by (vm_compute; reflexivity).
  apply wf_run, wf_init.
Qed.

Lemma dereference_of_last_key_witness :
  let s := two_arrays_B_first no_names [x01; x02] [x03; x04] in
  exists address view,
    varptr pc_memory "A%" [0] s = Ok address
    /\ view_buffer pc_memory "A%" [0] s = (s, Ok view)
    /\ dereference pc_memory address s = Ok (Some (view_bytes s view)).
Proof.
  apply (@dereference_of_last_key (session no_names) pc_memory "A%" [0] [3]
           0 9 [("B%"%string, (17, 26))]
           (two_arrays no_names [x01; x02] [x03; x04])
           (two_arrays_B_first no_names [x01; x02] [x03; x04])).
  - exact wf_two_arrays.
  - repeat split; vm_compute; try reflexivity; reversed.
  - vm_compute; discriminate.
  - reflexivity.
  - discriminate.
  - reflexivity.
  - repeat constructor; vm_compute; discriminate.
Defined.

Lemma wf_dim_A_B_C : wf (dim_A_B_C no_names).
Proof. apply wf_run, wf_init. Qed.

Lemma erase_keeps_address_order_witness :
  let s := dim_A_B_C_relisted no_names in
  exists s' h1' a1' h2' a2',
    erase "B%" s = (s', Ok tt)
    /\ Dict.get "A%" (_array_memory s') = Some (h1', a1')
    /\ Dict.get "C%" (_array_memory s') = Some (h2', a2')
    /\ 0 <= h1' < h2'
    /\ a1' - h1' = 9 - 0
    /\ a2' - h2' = 41 - 32.
Proof.
  apply (@erase_keeps_address_order (session no_names) "B%" "A%" "C%"
           0 9 32 41 (dim_A_B_C no_names) (dim_A_B_C_relisted no_names)).
  - exact wf_dim_A_B_C.
  - repeat split; vm_compute; try reflexivity; reversed.
  - reflexivity.
  - discriminate.
  - discriminate.
  - reflexivity.
  - reflexivity.
  - reflexivity.
Defined.

Lemma check_dim_declared_outcome_witness :
  let s := dim_A_B no_names in
  (legal_index (resolved_base s) [4] [3] ->
   check_dim pc_memory "A%" [4] s = (s, Ok ([3], "A%"%string)))
  /\ (List.length [4] <> List.length [3] ->
      check_dim pc_memory "A%" [4] s
      = (s, Raise (RunError SUBSCRIPT_OUT_OF_RANGE)))
  /\ (~ legal_index (resolved_base s) [4] [3] ->
      exists code,
        check_dim pc_memory "A%" [4] s = (s, Raise (RunError code))
        /\ (code = SUBSCRIPT_OUT_OF_RANGE
            \/ (code = IFC /\ Exists (fun i => i < 0) [4]))).
Proof.
  apply (@check_dim_declared_outcome (session no_names) pc_memory "A%" [4] [3]
           (dim_A_B no_names)).
  - exact wf_dim_A_B.
  - reflexivity.
Defined.

Lemma index_is_a_bijection_witness :
  (forall idx, legal_index 0 idx [3; 4] ->
     exists k, index (Some 0) idx [3; 4] = Ok k /\ 0 <= k
               /\ array_len (Some 0) [3; 4] = Ok (axes_product 0 [3; 4])
               /\ k < axes_product 0 [3; 4])
  /\ (forall idx1 idx2,
        legal_index 0 idx1 [3; 4] -> legal_index 0 idx2 [3; 4] ->
        index (Some 0) idx1 [3; 4] = index (Some 0) idx2 [3; 4] ->
        idx1 = idx2)
  /\ (forall k, 0 <= k < axes_product 0 [3; 4] ->
        exists idx, legal_index 0 idx [3; 4]
                    /\ index (Some 0) idx [3; 4] = Ok k).
Proof.
  apply (index_is_a_bijection 0 [3; 4]).
  repeat constructor; discriminate.
Defined.

Lemma set_leaves_other_elements_witness :
  let s := dim_A_B no_names in
  exists s1 view,
    @set (session no_names) pc_memory "A%" [1] [x01; x02] s = (s1, Ok tt)
    /\ get pc_memory "A%" [2] s = (s, Ok view)
    /\ get pc_memory "A%" [2] s1 = (s1, Ok view)
    /\ view_bytes s1 view = view_bytes s view.
Proof.
  apply (@set_leaves_other_elements (session no_names) pc_memory pc_memory
           "A%" [1] [2] [3] [x01; x02] "%"%char [x01; x02]
           (dim_A_B no_names)).
  - exact wf_dim_A_B.
  - reflexivity.
  - repeat constructor; vm_compute; discriminate.
  - repeat constructor; vm_compute; discriminate.
  - discriminate.
  - reflexivity.
  - reflexivity.
Defined.

Lemma set_leaves_other_arrays_witness :
  let s := dim_A_B no_names in
  let s' := fst (@set (session no_names) pc_memory "A%" [1] [x01; x02] s) in
  Dict.get "B%" (_dims s') = Dict.get "B%" (_dims s)
  /\ Dict.get "B%" (_buffers s') = Dict.get "B%" (_buffers s)
  /\ Dict.get "B%" (_array_memory s') = Dict.get "B%" (_array_memory s)
  /\ Dict.get "B%" (_cache s') = Dict.get "B%" (_cache s).
Proof.
  apply (@set_leaves_other_arrays (session no_names) pc_memory "A%" [1]
           [x01; x02] (dim_A_B no_names) "B%").
  discriminate.
Defined.

Lemma set_drops_cache_witness :
  let s0 := fst (@set_cache (session no_names) "A%" (Some tt)
                   (dim_A_B no_names)) in
  get_cache "A%" s0 = Ok (Some tt)
  /\ exists s1,
       @set (session no_names) pc_memory "A%" [1] [x01; x02] s0 = (s1, Ok tt)
       /\ get_cache "A%" s1 = Ok None.
Proof.
  apply (@set_drops_cache (session no_names) pc_memory "A%" [1] [3]
           [x01; x02] "%"%char [x01; x02] (Some tt) (dim_A_B no_names)).
  - exact wf_dim_A_B.
  - reflexivity.
  - repeat constructor; vm_compute; discriminate.
  - reflexivity.
  - reflexivity.
Defined.

Lemma fresh_array_reads_zero_witness :
  let s1 := fst (@dim (session no_names) pc_memory "A%" [3] init) in
  contains "A%" s1 = true
  /\ dimensions "A%" s1 = Ok [3]
  /\ get_cache "A%" s1 = Ok None
  /\ exists view,
       get pc_memory "A%" [2] s1 = (s1, Ok view)
       /\ view_bytes s1 view
          = repeat x00 (Z.to_nat (@size_bytes (session no_names) "A%")).
Proof.
  intro s1.
  apply (@fresh_array_reads_zero (session no_names) pc_memory pc_memory "A%"
           [2] [3] init s1).
  - exact wf_init.
  - vm_compute; reflexivity.
  - repeat constructor; vm_compute; discriminate.
Defined.

Lemma varptr_in_data_witness :
  let s := dim_A_B no_names in
  exists h a buf a1 a2,
    descriptor s "A%" [3] h a buf
    /\ varptr pc_memory "A%" [1] s = Ok a1
    /\ varptr pc_memory "A%" [3] s = Ok a2
    /\ var_current pc_memory + a <= a1
    /\ a1 + @size_bytes (session no_names) "A%"
       <= var_current pc_memory + a + Z.of_nat (List.length buf)
    /\ ([1] <> [3] ->
        a1 + @size_bytes (session no_names) "A%" <= a2
        \/ a2 + @size_bytes (session no_names) "A%" <= a1).
Proof.
  apply (@varptr_in_data (session no_names) pc_memory "A%" [1] [3] [3]
           (dim_A_B no_names)).
  - exact wf_dim_A_B.
  - reflexivity.
  - repeat constructor; vm_compute; discriminate.
  - repeat constructor; vm_compute; discriminate.
Defined.

Lemma erase_keeps_other_contents_witness :
  let s := dim_A_B no_names in
  exists s' view,
    erase "A%" s = (s', Ok tt)
    /\ get pc_memory "B%" [1] s = (s, Ok view)
    /\ get pc_memory "B%" [1] s' = (s', Ok view)
    /\ view_bytes s' view = view_bytes s view.
Proof.
  apply (@erase_keeps_other_contents (session no_names) pc_memory "A%" "B%"
           [1] [2] (dim_A_B no_names)).
  - exact wf_dim_A_B.
  - reflexivity.
  - reflexivity.
  - discriminate.
  - repeat constructor; vm_compute; discriminate.
Defined.

Lemma get_strings_cover_witness :
  let s := strings_T_first no_names [x01; x02; x03] [x04; x05; x06] in
  (Forall (fun e => fst e <> EmptyString) (_buffers s) ->
   exists views,
     get_strings s = Ok views
     /\ List.concat (map (view_bytes s) views)
        = List.concat
            (map snd (filter (fun e => is_string_name (fst e)) (_buffers s)))
     /\ Forall (fun v => is_string_name (view_of v) = true
                         /\ 0 <= view_stop v - view_start v <= 3) views)
  /\ (Exists (fun e => fst e = EmptyString) (_buffers s) ->
      get_strings s = Raise IndexError).
Proof.
  apply (@get_strings_cover (session no_names)
           (strings_T_first no_names [x01; x02; x03] [x04; x05; x06])).
  repeat (constructor; [cbn; intuition discriminate|]). constructor.
Defined.

Lemma to_list_reads_from_base_witness :
  let s := dim_A_B no_names in
  exists items,
    to_list pc_memory "A%" s = (s, Ok items)
    /\ match Dict.get "A%" (_dims s) with
       | Some d =>
           items = grid "A%" (resolved_base s)
                     (@size_bytes (session no_names) "A%") d [] d
           /\ List.length items = Z.to_nat (hd 0 d)
       | None => items = []
       end.
Proof.
  apply (@to_list_reads_from_base (session no_names) pc_memory "A%"
           (dim_A_B no_names)).
  exact wf_dim_A_B.
Defined.

Lemma get_memory_data_arena_at_zero_witness :
  let s := dim_A_B no_names in
  exists x,
    nth_error (repeat x00 8) (Z.to_nat (10 - 9)) = Some x
    /\ get_memory (mkMemory (check_free pc_memory) 0) 10 s
       = Ok (Z_of_byte x).
Proof.
  apply (@get_memory_data_arena_at_zero (session no_names)
           (mkMemory (check_free pc_memory) 0) (dim_A_B no_names) "A%" [3]
           0 9 (repeat x00 8) 10).
  - exact wf_dim_A_B.
  - reflexivity.
  - repeat split.
  - vm_compute. split; [discriminate|reflexivity].
Defined.

Lemma get_memory_header_record_witness :
  let s := dim_A_B no_names in
  let mem := mkMemory (check_free pc_memory) 0 in
  let record := ([byte_of_Z 11; byte_of_Z (11 / 256); byte_of_Z 1]
                 ++ [byte_of_Z 4; byte_of_Z (4 / 256)])%list in
  (5 - 0 < 4 -> get_memory mem 5 s = no_names "A%"%string (5 - 0))
  /\ (4 <= 5 - 0 ->
      Forall (fun x => x + 1 - 0 <= 65535) [3] -> 11 <= 65535 -> 1 <= 255 ->
      exists x,
        nth_error record (Z.to_nat (5 - 0 - 4)) = Some x
        /\ get_memory mem 5 s = Ok (Z_of_byte x)).
Proof.
  apply (@get_memory_header_record (session no_names)
           (mkMemory (check_free pc_memory) 0) (dim_A_B no_names) "A%" [3]
           0 9 (repeat x00 8) 5).
  - exact wf_dim_A_B.
  - reflexivity.
  - repeat split.
  - vm_compute. split; [discriminate|reflexivity].
Defined.
